(** * A spreadsheet formula engine: label codec, cell store, display cache

    Shallow embedding of [src/components/Home/VirtualizedGrid/index.tsx].

    Modelling conventions.
    - JavaScript numbers that the engine manipulates are row and column
      indices; they are modelled by [Z].  The host computes with binary64
      numbers, on which the arithmetic of the codec is exact for the
      integers up to [MAX_SAFE_INTEGER]; the statements about the codec
      are made for that range.  [hostAdd] is the host's addition, with
      its rounding, and [cellKeyToLabelHost] the codec's use of it in
      [row + 1]; on the range it is proved to agree with the addition
      of [Z].
    - JavaScript strings are modelled by [string]; a character stands for
      one code unit below 256.
    - The two objects used as dictionaries ([gridData] and
      [calculationCache.current]) are [gmap string string]; the
      [Set<string>] of referenced keys is a [gset string].
    - [displayValue] is recursive without any bound of its own.  It is
      modelled twice from the same body.  [displayValue] is a [Fixpoint]
      on the number of nested calls and answers [None] when that number
      does not suffice: the function as written, the call stack left
      out.  [displayValueOnStack] runs on a call stack that holds a given
      number of nested calls: the call that does not fit raises the
      host's stack error, which the [catch] clause of the calling
      [displayValue] turns into a text.
    - [new Function(...)()] belongs to the host language; it is a
      parameter of the development ([newFunction]), taken to return and
      to depend on the text it is given alone. *)

From Stdlib Require Import ZArith Lia String Ascii List.
From Stdlib Require Import DecimalString DecimalZ DecimalN DecimalPos.
From Stdlib Require Import SpecFloat.
From stdpp Require Import gmap strings list fin_maps.

Local Open Scope string_scope.
Local Open Scope Z_scope.

#[local] Arguments String.append !s1 s2 : simpl nomatch.
#[local] Set Warnings "-clear-no-such-hyp".

(** ** Host string primitives *)

Definition charCode (c : ascii) : Z := Z.of_nat (nat_of_ascii c).

Definition fromCharCode (n : Z) : ascii := ascii_of_nat (Z.to_nat n).

Definition isUpper (c : ascii) : bool := (65 <=? charCode c) && (charCode c <=? 90).

Definition isDigit (c : ascii) : bool := (48 <=? charCode c) && (charCode c <=? 57).

(** [span p s] splits [s] into its longest prefix of characters
    satisfying [p] and the remainder: the behaviour of a greedy
    character-class repetition. *)
Fixpoint span (p : ascii -> bool) (s : string) : string * string :=
  match s with
  | EmptyString => (EmptyString, EmptyString)
  | String c s' =>
      if p c then let '(a, b) := span p s' in (String c a, b)
      else (EmptyString, s)
  end.

Fixpoint allChars (p : ascii -> bool) (s : string) : bool :=
  match s with
  | EmptyString => true
  | String c s' => p c && allChars p s'
  end.

Definition isEmpty (s : string) : bool :=
  match s with EmptyString => true | _ => false end.

(** [`${n}`] for an integral number. *)
Definition numberToString (n : Z) : string :=
  NilZero.string_of_int (Z.to_int n).

(** [parseInt] on a run of decimal digits. *)
Fixpoint parseDigits (acc : Z) (s : string) : Z :=
  match s with
  | EmptyString => acc
  | String c s' => parseDigits (acc * 10 + (charCode c - 48)) s'
  end.

Definition parseInt (s : string) : Z := parseDigits 0 s.

(** ** Coordinate codec *)

Definition getCellKey (row col : Z) : string :=
  numberToString row +:+ "," +:+ numberToString col.

(** The [while] loop of [cellKeyToLabel]; [fuel] bounds the number of
    iterations. *)
Fixpoint colLoop (fuel : nat) (colNum : Z) (colLabel : string) : string :=
  match fuel with
  | O => colLabel
  | S fuel' =>
      if colNum >=? 0 then
        let colLabel' := String (fromCharCode (65 + Z.rem colNum 26)) colLabel in
        let colNum' := colNum / 26 - 1 in
        if colNum' <? 0 then colLabel' else colLoop fuel' colNum' colLabel'
      else colLabel
  end.

(** Each iteration divides [colNum] by 26, so the binary length of [col]
    bounds the number of iterations. *)
Definition colFuel (col : Z) : nat := S (Z.to_nat (Z.log2 col)).

Definition cellKeyToLabel (row col : Z) : string :=
  colLoop (colFuel col) col EmptyString +:+ numberToString (row + 1).

(** The [for] loop of [labelToCellKey]. *)
Fixpoint colOfLetters (col : Z) (colLetters : string) : Z :=
  match colLetters with
  | EmptyString => col
  | String c rest => colOfLetters (col * 26 + (charCode c - 65 + 1)) rest
  end.

(** [label.match(/^([A-Z]+)(\d+)$/)]: the two captured groups. *)
Definition matchLabel (label : string) : option (string * string) :=
  let '(colLetters, rest) := span isUpper label in
  let '(rowStr, tail) := span isDigit rest in
  if negb (isEmpty colLetters) && negb (isEmpty rowStr) && isEmpty tail
  then Some (colLetters, rowStr) else None.

Definition labelToCellKey (label : string) : option string :=
  match matchLabel label with
  | None => None
  | Some (colLetters, rowStr) =>
      let col := colOfLetters 0 colLetters in
      Some (numberToString (parseInt rowStr - 1) +:+ "," +:+ numberToString (col - 1))
  end.

(** [key.split(",").map(Number)] on a key, whose two components are
    printed integers. *)
Definition isComma (c : ascii) : bool := charCode c =? 44.

Definition numberOfString (s : string) : Z :=
  match s with
  | String "-" digits => - parseInt digits
  | _ => parseInt s
  end.

Definition keyToCoord (key : string) : Z * Z :=
  let '(rowStr, rest) := span (fun c => negb (isComma c)) key in
  let '(colStr, _) := span (fun c => negb (isComma c))
                        (match rest with String _ r => r | EmptyString => EmptyString end) in
  (numberOfString rowStr, numberOfString colStr).

(** ** [isNaN(Number(val))]

    [Number] applied to a string yields [NaN] exactly when the trimmed
    string is neither empty nor a numeric literal of the host's
    string-to-number grammar. *)

Definition isWhiteSpace (c : ascii) : bool :=
  let n := charCode c in
  (9 <=? n) && (n <=? 13) || (n =? 32) || (n =? 160).

Fixpoint trimStart (s : string) : string :=
  match s with
  | EmptyString => EmptyString
  | String c s' => if isWhiteSpace c then trimStart s' else s
  end.

Fixpoint trimEnd (s : string) : string :=
  match s with
  | EmptyString => EmptyString
  | String c s' =>
      let t := trimEnd s' in
      if isEmpty t && isWhiteSpace c then EmptyString else String c t
  end.

Definition isSign (c : ascii) : bool := (charCode c =? 43) || (charCode c =? 45).

Definition dropSign (s : string) : string :=
  match s with
  | String c s' => if isSign c then s' else s
  | EmptyString => EmptyString
  end.

Definition isExponentPart (s : string) : bool :=
  match s with
  | String c s' =>
      ((charCode c =? 101) || (charCode c =? 69))
      && negb (isEmpty (dropSign s')) && allChars isDigit (dropSign s')
  | EmptyString => false
  end.

Definition isUnsignedDecimal (s : string) : bool :=
  if String.eqb s "Infinity" then true
  else
    let '(intPart, r1) := span isDigit s in
    match r1 with
    | String "." r2 =>
        let '(fracPart, r3) := span isDigit r2 in
        (negb (isEmpty intPart) || negb (isEmpty fracPart))
        && (isEmpty r3 || isExponentPart r3)
    | _ => negb (isEmpty intPart) && (isEmpty r1 || isExponentPart r1)
    end.

Definition isBinDigit (c : ascii) : bool := (48 <=? charCode c) && (charCode c <=? 49).

Definition isOctDigit (c : ascii) : bool := (48 <=? charCode c) && (charCode c <=? 55).

Definition isHexDigit (c : ascii) : bool :=
  isDigit c
  || (65 <=? charCode c) && (charCode c <=? 70)
  || (97 <=? charCode c) && (charCode c <=? 102).

Definition isNonDecimalInteger (s : string) : bool :=
  match s with
  | String "0" (String x digits) =>
      negb (isEmpty digits)
      && (if (charCode x =? 98) || (charCode x =? 66) then allChars isBinDigit digits
          else if (charCode x =? 111) || (charCode x =? 79) then allChars isOctDigit digits
          else if (charCode x =? 120) || (charCode x =? 88) then allChars isHexDigit digits
          else false)
  | _ => false
  end.

Definition isNaNNumber (val : string) : bool :=
  let t := trimEnd (trimStart val) in
  negb (isEmpty t || isNonDecimalInteger t || isUnsignedDecimal (dropSign t)).

Definition startsWithEq (s : string) : bool :=
  match s with
  | String c _ => charCode c =? 61
  | EmptyString => false
  end.

(** [raw.slice(1)] *)
Definition slice1 (s : string) : string :=
  match s with
  | String _ s' => s'
  | EmptyString => EmptyString
  end.

Definition quote : string := String (ascii_of_nat 34) EmptyString.

(** ** The scanner of [expr.replace(/[A-Z]+\d+/g, ...)] *)

Inductive segment : Type :=
| Verbatim (c : ascii)
| Match (label : string).

(** The pattern tried at the head of [s]: the matched text and what
    follows it. *)
Definition matchAt (s : string) : option (string * string) :=
  let '(letters, rest) := span isUpper s in
  let '(digits, tail) := span isDigit rest in
  if negb (isEmpty letters) && negb (isEmpty digits)
  then Some (letters +:+ digits, tail) else None.

(** Left-to-right global matching: a match consumes its text, a failure
    copies one character and retries at the next position.  [fuel]
    bounds the number of positions visited. *)
Fixpoint scan (fuel : nat) (s : string) : list segment :=
  match fuel with
  | O => []
  | S fuel' =>
      match s with
      | EmptyString => []
      | String c s' =>
          match matchAt s with
          | Some (label, tail) => Match label :: scan fuel' tail
          | None => Verbatim c :: scan fuel' s'
          end
      end
  end.

Definition segments (expr : string) : list segment :=
  scan (String.length expr) expr.

(** The text that a list of segments spells. *)
Fixpoint segmentsText (segs : list segment) : string :=
  match segs with
  | [] => EmptyString
  | Verbatim c :: rest => String c (segmentsText rest)
  | Match label :: rest => label +:+ segmentsText rest
  end.

(** ** Formula evaluation *)

(** What [new Function(body)()?.toString()] does: it yields a text, or
    a nullish value, or throws. *)
Inductive JsValue : Type :=
| JsNullish
| JsText (text : string).

Inductive Completion : Type :=
| Returns (v : JsValue)
| ThrowsError (message : string)
| ThrowsOther.

(** Result of code that may [throw new Error(message)]. *)
Inductive Outcome (A : Type) : Type :=
| Normal (a : A)
| Throw (message : string).

Arguments Normal {A} a.
Arguments Throw {A} message.

Definition circularMessage : string := "Circular reference".

(** The type of [displayValue] once the grid is fixed: from a cache and
    a coordinate to a text and the cache afterwards, if the call returns. *)
Abbreviation recurT :=
  (gmap string string -> Z -> Z -> option (string * gmap string string)).

Section Evaluator.

Variable newFunction : string -> Completion.

(** The text a completed host evaluation is turned into:
    [result?.toString() ?? "ERR"], and the [catch] clause. *)
Definition settle (c : Completion) : string :=
  match c with
  | Returns (JsText text) => text
  | Returns JsNullish => "ERR"
  | ThrowsError message => message
  | ThrowsOther => "ERR"
  end.

(** The callback given to [replace], for one matched [label].  [recur]
    is the recursive call of [displayValue]; the state threaded
    through is the set [referencedCells] and the display cache. *)
Definition replaceCallback (recur : recurT)
    (gridData : gmap string string) (cellKey : string)
    (referencedCells : gset string) (cache : gmap string string)
    (label : string)
  : option (Outcome string * gset string * gmap string string) :=
  match labelToCellKey label with
  | None => Some (Normal "0", referencedCells, cache)
  | Some key =>
      if isEmpty key then Some (Normal "0", referencedCells, cache)
      else if bool_decide (key ∈ referencedCells) || String.eqb key cellKey
      then Some (Throw circularMessage, referencedCells, cache)
      else
        let referencedCells' := referencedCells ∪ {[ key ]} in
        match gridData !! key with
        | None => Some (Normal "0", referencedCells', cache)
        | Some val =>
            if isEmpty val then Some (Normal "0", referencedCells', cache)
            else if startsWithEq val then
              let '(refRow, refCol) := keyToCoord key in
              match recur cache refRow refCol with
              | None => None
              | Some (text, cache') => Some (Normal text, referencedCells', cache')
              end
            else if isNaNNumber val
            then Some (Normal (quote +:+ val +:+ quote), referencedCells', cache)
            else Some (Normal val, referencedCells', cache)
        end
  end.

(** [expr.replace] over the scanned segments; a throw in the callback
    abandons the replacement. *)
Fixpoint replaceAll (recur : recurT)
    (gridData : gmap string string) (cellKey : string)
    (segs : list segment)
    (referencedCells : gset string) (cache : gmap string string)
  : option (Outcome string * gmap string string) :=
  match segs with
  | [] => Some (Normal EmptyString, cache)
  | Verbatim c :: rest =>
      match replaceAll recur gridData cellKey rest referencedCells cache with
      | Some (Normal out, cache') => Some (Normal (String c out), cache')
      | other => other
      end
  | Match label :: rest =>
      match replaceCallback recur gridData cellKey referencedCells cache label with
      | None => None
      | Some (Throw message, _, cache') => Some (Throw message, cache')
      | Some (Normal sub, referencedCells', cache') =>
          match replaceAll recur gridData cellKey rest referencedCells' cache' with
          | Some (Normal out, cache'') => Some (Normal (sub +:+ out), cache'')
          | other => other
          end
      end
  end.

Definition getValue (gridData : gmap string string) (row col : Z) : string :=
  default EmptyString (gridData !! getCellKey row col).

(** The body of [displayValue]; [recur] stands for the function itself
    in the recursive call.  The cache is passed in and handed back. *)
Definition displayBody (recur : recurT)
    (gridData cache : gmap string string) (row col : Z)
  : option (string * gmap string string) :=
  let cellKey := getCellKey row col in
  let cached := default EmptyString (cache !! cellKey) in
  if negb (isEmpty cached) then Some (cached, cache)
  else
    let raw := getValue gridData row col in
    if negb (startsWithEq raw) then Some (raw, <[cellKey := raw]> cache)
    else
      let expr := slice1 raw in
      match replaceAll recur gridData cellKey (segments expr) ∅ cache with
      | None => None
      | Some (Normal parsedExpr, cache') =>
          let displayResult := settle (newFunction ("return " +:+ parsedExpr)) in
          Some (displayResult, <[cellKey := displayResult]> cache')
      | Some (Throw errorMsg, cache') =>
          Some (errorMsg, <[cellKey := errorMsg]> cache')
      end.

(** [displayValue].  The source puts no bound on the recursion; [fuel]
    is the number of nested calls allowed, and [None] means that the
    evaluation needs more. *)
Fixpoint displayValue (fuel : nat) (gridData cache : gmap string string)
    (row col : Z) : option (string * gmap string string) :=
  match fuel with
  | O => None
  | S fuel' => displayBody (displayValue fuel' gridData) gridData cache row col
  end.

(** The same computation with the cache taken out: every call, nested
    ones included, starts from an empty cache.  This is the display text
    that the grid alone determines. *)
Fixpoint displayPure (fuel : nat) (gridData : gmap string string)
    (row col : Z) : option string :=
  match fuel with
  | O => None
  | S fuel' =>
      option_map fst
        (displayBody
           (fun _ r c => option_map (fun text => (text, ∅)) (displayPure fuel' gridData r c))
           gridData ∅ row col)
  end.

(** The expression text handed to the host by the evaluation of a
    formula cell, when the substitution completes. *)
Definition parsedExprOf (fuel : nat) (gridData cache : gmap string string)
    (row col : Z) : option string :=
  match replaceAll (displayValue fuel gridData) gridData (getCellKey row col)
          (segments (slice1 (getValue gridData row col))) ∅ cache with
  | Some (Normal parsedExpr, _) => Some parsedExpr
  | _ => None
  end.

(** ** The engine state and its two operations *)

Record engine : Type := Engine {
  gridData : gmap string string;
  calculationCache : gmap string string
}.

Definition initial : engine := Engine ∅ ∅.

Definition setValue (e : engine) (row col : Z) (value : string) : engine :=
  Engine (<[getCellKey row col := value]> (gridData e)) ∅.

Definition display (fuel : nat) (e : engine) (row col : Z) : option (string * engine) :=
  match displayValue fuel (gridData e) (calculationCache e) row col with
  | None => None
  | Some (text, cache') => Some (text, Engine (gridData e) cache')
  end.

Inductive op : Type :=
| SetRaw (row col : Z) (value : string)
| DisplayText (row col : Z).

(** A sequence of calls from the rendering layer; the texts returned by
    the [DisplayText] calls are collected in order. *)
Fixpoint run (fuel : nat) (ops : list op) (e : engine) : option (list string * engine) :=
  match ops with
  | [] => Some ([], e)
  | SetRaw row col value :: rest => run fuel rest (setValue e row col value)
  | DisplayText row col :: rest =>
      match display fuel e row col with
      | None => None
      | Some (text, e') =>
          match run fuel rest e' with
          | None => None
          | Some (texts, e'') => Some (text :: texts, e'')
          end
      end
  end.

End Evaluator.

(** The keys that the callback adds to [referencedCells] while it
    substitutes the segments [segs]. *)
Fixpoint keysOf (segs : list segment) : gset string :=
  match segs with
  | [] => ∅
  | Verbatim _ :: rest => keysOf rest
  | Match label :: rest =>
      match labelToCellKey label with
      | Some key => if isEmpty key then keysOf rest else {[ key ]} ∪ keysOf rest
      | None => keysOf rest
      end
  end.



(** ** A bounded expression grammar

    The source has no expression grammar of its own.  This is the
    alphabet of the expression language that the specification asks for:
    numeric literals, quoted string literals, the four operators and
    parentheses.  [lexBounded] accepts a text exactly when it splits into
    such tokens (blanks between tokens are allowed). *)

Definition isOperator (c : ascii) : bool :=
  let n := charCode c in
  (n =? 43) || (n =? 45) || (n =? 42) || (n =? 47) || (n =? 40) || (n =? 41).

Fixpoint lexBounded (inString : option ascii) (s : string) : bool :=
  match s with
  | EmptyString => match inString with None => true | Some _ => false end
  | String c s' =>
      match inString with
      | Some q => if Ascii.eqb c q then lexBounded None s' else lexBounded inString s'
      | None =>
          if (charCode c =? 34) || (charCode c =? 39) then lexBounded (Some c) s'
          else if isDigit c || (charCode c =? 46) || isOperator c || (charCode c =? 32)
          then lexBounded None s'
          else false
      end
  end.

(** ** A small host

    A host evaluator that understands sums of decimal literals and
    rejects every other body; it instantiates the host parameter in
    closed examples. *)

Fixpoint sumOfLiterals (total : Z) (current : option Z) (s : string) : option Z :=
  match s with
  | EmptyString => option_map (Z.add total) current
  | String c s' =>
      if isDigit c
      then sumOfLiterals total (Some (default 0 current * 10 + (charCode c - 48))) s'
      else if charCode c =? 43
      then match current with
           | Some n => sumOfLiterals (total + n) None s'
           | None => None
           end
      else None
  end.

Definition sumHost (body : string) : Completion :=
  if String.prefix "return " body then
    match sumOfLiterals 0 None (String.substring 7 (String.length body - 7) body) with
    | Some n => Returns (JsText (numberToString n))
    | None => ThrowsError "Unexpected token"
    end
  else ThrowsError "Unexpected token".

(** ** Notions used in the statements *)

(** The recursive call of the cache-free evaluation. *)
Definition pureRecur (newFunction : string -> Completion) (fuel : nat)
    (gridData : gmap string string) : recurT :=
  fun _ r c => option_map (fun text => (text, ∅)) (displayPure newFunction fuel gridData r c).

(** [recurLe r1 r2]: whatever [r1] answers, [r2] answers too. *)
Definition recurLe (r1 r2 : recurT) : Prop :=
  forall cache row col x, r1 cache row col = Some x -> r2 cache row col = Some x.

(** A cache entry is a miss when it is absent or holds the empty text
    (the source tests the entry for truthiness). *)
Definition cacheMiss (cache : gmap string string) (cellKey : string) : Prop :=
  default EmptyString (cache !! cellKey) = EmptyString.

(** Every cached text is the display text that the grid determines for
    the cell of that key. *)
Definition consistent (newFunction : string -> Completion)
    (gridData cache : gmap string string) : Prop :=
  forall key text, cache !! key = Some text ->
    exists row col fuel,
      key = getCellKey row col /\ displayPure newFunction fuel gridData row col = Some text.

(** What a call with the cache returns is what the grid determines, and
    the cache it hands back is consistent again. *)
Definition cachedSound (newFunction : string -> Completion) (fuel : nat)
    (g : gmap string string) : Prop :=
  forall cache row col text cache',
    consistent newFunction g cache ->
    displayValue newFunction fuel g cache row col = Some (text, cache') ->
    consistent newFunction g cache'
    /\ exists fuel', displayPure newFunction fuel' g row col = Some text.


(** ** The grid extent *)

Definition TOTAL_COLUMNS : Z := 10000.

Definition TOTAL_ROWS : Z := 10000.

(** ** What a [Cell] shows

    The [title] of the input field, and whether the small overlay with
    the computed result is rendered. *)



(** The text a cell starts with in the first version of the component
    ([`Cell ${rowIndex}, ${columnIndex}`]). *)
Definition initialCellText (rowIndex columnIndex : Z) : string :=
  "Cell " +:+ numberToString rowIndex +:+ ", " +:+ numberToString columnIndex.

(** ** Grids that read alike *)

(** Two grids have the same content on the keys of [D]: reading a key
    gives the same text in both, an absent entry reading as the empty
    text. *)
Definition sameContent (D : string -> Prop) (g1 g2 : gmap string string) : Prop :=
  forall key, D key -> default EmptyString (g1 !! key) = default EmptyString (g2 !! key).

(** [D] holds, with every formula cell of [D], the keys of the tokens of
    its formula. *)
Definition closedRefs (D : string -> Prop) (g : gmap string string) : Prop :=
  forall key label key',
    D key ->
    startsWithEq (default EmptyString (g !! key)) = true ->
    In (Match label) (segments (slice1 (default EmptyString (g !! key)))) ->
    labelToCellKey label = Some key' ->
    D key'.

(** [cacheGrows c c']: every entry of [c] is still present in [c'], and
    the non-empty ones hold the same text. *)
Definition cacheGrows (c c' : gmap string string) : Prop :=
  forall key,
    (is_Some (c !! key) -> is_Some (c' !! key))
    /\ (forall text, c !! key = Some text -> isEmpty text = false -> c' !! key = Some text).

(** Every answer of [recur] comes with a cache that has grown. *)
Definition recurGrows (recur : recurT) : Prop :=
  forall cache row col text cache',
    recur cache row col = Some (text, cache') -> cacheGrows cache cache'.

(** ** The host's numbers

    The host computes in binary64.  Integers up to [MAX_SAFE_INTEGER] in
    absolute value are held exactly, and on them the integer operations
    of the codec above are those of the host; beyond, a result is
    rounded.  [hostAdd] is the host's addition of two integers, with
    the rounding of the standard library's specification of IEEE 754
    ([None]: the result is not a finite integer). *)

Definition MAX_SAFE_INTEGER : Z := 2 ^ 53 - 1.

Definition toDouble (z : Z) : spec_float := binary_normalize 53 1024 z 0 false.

Definition ofDouble (f : spec_float) : option Z :=
  match f with
  | S754_zero _ => Some 0
  | S754_finite sign m e =>
      let magnitude :=
        if 0 <=? e then Some (Z.pos m * 2 ^ e)
        else if Z.pos m mod 2 ^ (- e) =? 0 then Some (Z.pos m / 2 ^ (- e))
        else None in
      option_map (fun v => if sign then - v else v) magnitude
  | _ => None
  end.

Definition hostAdd (a b : Z) : option Z :=
  ofDouble (SFadd 53 1024 (toDouble a) (toDouble b)).

(** The mantissa of 53 bits by which the host holds a positive integer
    below 2^53. *)
Definition mantissa53 (m : positive) : positive :=
  match (53 - Z.pos (digits2_pos m))%Z with
  | Z.pos k => Pos.iter xO m k
  | _ => m
  end.

(** [cellKeyToLabel] with the addition [row + 1] of its last line done
    in the host's numbers.  The column loop and the printing are those
    of [cellKeyToLabel]; they are the host's for a column of at most
    [MAX_SAFE_INTEGER] and a number printed below 10^21. *)
Definition cellKeyToLabelHost (row col : Z) : option string :=
  match hostAdd row 1 with
  | Some n => Some (colLoop (colFuel col) col EmptyString +:+ numberToString n)
  | None => None
  end.

(** ** The evaluator on a host with a finite call stack

    The host raises an [Error] (a [RangeError], with the message
    [stackMessage]) at a call that its call stack cannot hold.  In
    [displayValue] the nested call is made inside the callback of
    [replace], inside [try]: the error is caught by the [catch] clause
    of the calling [displayValue], whose text it becomes.  [limit] is
    the number of nested [displayValue] calls that the stack holds;
    a call at limit 0 is the one that raises ([None]). *)

Section OnStack.

Variable newFunction : string -> Completion.

Variable stackMessage : string.

(** The callback when the nested call can fail to start: the error is
    thrown inside the callback, before the cache is touched. *)
Definition replaceCallbackOnStack (recur : recurT)
    (gridData : gmap string string) (cellKey : string)
    (referencedCells : gset string) (cache : gmap string string)
    (label : string)
  : Outcome string * gset string * gmap string string :=
  match replaceCallback recur gridData cellKey referencedCells cache label with
  | Some result => result
  | None => (Throw stackMessage, referencedCells, cache)
  end.

Fixpoint replaceAllOnStack (recur : recurT)
    (gridData : gmap string string) (cellKey : string)
    (segs : list segment)
    (referencedCells : gset string) (cache : gmap string string)
  : Outcome string * gmap string string :=
  match segs with
  | [] => (Normal EmptyString, cache)
  | Verbatim c :: rest =>
      match replaceAllOnStack recur gridData cellKey rest referencedCells cache with
      | (Normal out, cache') => (Normal (String c out), cache')
      | other => other
      end
  | Match label :: rest =>
      match replaceCallbackOnStack recur gridData cellKey referencedCells cache label with
      | (Throw message, _, cache') => (Throw message, cache')
      | (Normal sub, referencedCells', cache') =>
          match replaceAllOnStack recur gridData cellKey rest referencedCells' cache' with
          | (Normal out, cache'') => (Normal (sub +:+ out), cache'')
          | other => other
          end
      end
  end.

(** The body of [displayValue] once entered: every throw inside [try]
    ends in the [catch] clause, so the body always returns a text. *)
Definition displayBodyOnStack (recur : recurT)
    (gridData cache : gmap string string) (row col : Z)
  : string * gmap string string :=
  let cellKey := getCellKey row col in
  let cached := default EmptyString (cache !! cellKey) in
  if negb (isEmpty cached) then (cached, cache)
  else
    let raw := getValue gridData row col in
    if negb (startsWithEq raw) then (raw, <[cellKey := raw]> cache)
    else
      let expr := slice1 raw in
      match replaceAllOnStack recur gridData cellKey (segments expr) ∅ cache with
      | (Normal parsedExpr, cache') =>
          let displayResult := settle (newFunction ("return " +:+ parsedExpr)) in
          (displayResult, <[cellKey := displayResult]> cache')
      | (Throw errorMsg, cache') =>
          (errorMsg, <[cellKey := errorMsg]> cache')
      end.

Fixpoint displayValueOnStack (limit : nat) (gridData cache : gmap string string)
    (row col : Z) : option (string * gmap string string) :=
  match limit with
  | O => None
  | S limit' =>
      Some (displayBodyOnStack (displayValueOnStack limit' gridData) gridData cache row col)
  end.

Definition displayOnStack (limit : nat) (e : engine) (row col : Z)
  : option (string * engine) :=
  match displayValueOnStack limit (gridData e) (calculationCache e) row col with
  | None => None
  | Some (text, cache') => Some (text, Engine (gridData e) cache')
  end.

Fixpoint runOnStack (limit : nat) (ops : list op) (e : engine)
  : option (list string * engine) :=
  match ops with
  | [] => Some ([], e)
  | SetRaw row col value :: rest => runOnStack limit rest (setValue e row col value)
  | DisplayText row col :: rest =>
      match displayOnStack limit e row col with
      | None => None
      | Some (text, e') =>
          match runOnStack limit rest e' with
          | None => None
          | Some (texts, e'') => Some (text :: texts, e'')
          end
      end
  end.

End OnStack.

(** The message of the stack error on one common host. *)
Definition v8StackMessage : string := "Maximum call stack size exceeded".

(** ** Proof tactics *)

Ltac eval_charCode :=
  repeat match goal with
    | |- context [charCode ?c] =>
        let v := eval vm_compute in (charCode c) in change (charCode c) with v
    end.

(** * Sanity checks *)

Example cellKeyToLabel_A1 : cellKeyToLabel 0 0 = "A1".
Proof. reflexivity. Qed.

Example cellKeyToLabel_AA10 : cellKeyToLabel 9 26 = "AA10".
Proof. reflexivity. Qed.

Example cellKeyToLabel_ZZ : cellKeyToLabel 0 701 = "ZZ1".
Proof. reflexivity. Qed.

Example cellKeyToLabel_AAA : cellKeyToLabel 0 702 = "AAA1".
Proof. reflexivity. Qed.

Example labelToCellKey_B7 : labelToCellKey "B7" = Some "6,1".
Proof. reflexivity. Qed.

Example labelToCellKey_lower : labelToCellKey "b7" = None.
Proof. reflexivity. Qed.

Example segments_mixed :
  segments "A1+foo(BC23)-X" =
  [Match "A1"; Verbatim "+"; Verbatim "f"; Verbatim "o"; Verbatim "o"; Verbatim "(";
   Match "BC23"; Verbatim ")"; Verbatim "-"; Verbatim "X"].
Proof. reflexivity. Qed.

Example isNaNNumber_samples :
  map isNaNNumber ["5"; " 5 "; "-5.5e3"; "1."; ".5"; "0x1F"; "-Infinity"; "  "]
  = [false; false; false; false; false; false; false; false]
  /\ map isNaNNumber ["abc"; "."; "1e"; "+"; "1 2"; "0b102"; "-0x1"]
     = [true; true; true; true; true; true; true].
Proof. split; reflexivity. Qed.

(** A text literal is substituted between quotes. *)
Example text_reference_quoted :
  parsedExprOf sumHost 0 (<["0,0" := "ab"]> (<["0,1" := "=A1+1"]> ∅)) ∅ 0 1
  = Some (quote +:+ "ab" +:+ quote +:+ "+1").
Proof. vm_compute. reflexivity. Qed.

(** Two cells that refer to a common third one are not flagged: each
    nested call has its own set of referenced keys. *)
Example diamond_not_flagged :
  option_map fst
    (displayValue sumHost 3
       (<["0,0" := "1"]> (<["0,1" := "=A1"]> (<["0,2" := "=A1"]> (<["0,3" := "=B1+C1"]> ∅))))
       ∅ 0 3)
  = Some "2".
Proof. vm_compute. reflexivity. Qed.

(** A chain of formulas needs as many nested calls as it is long. *)
Example chain_needs_depth :
  displayValue sumHost 2
    (<["0,0" := "=1"]> (<["0,1" := "=A1"]> (<["0,2" := "=B1"]> ∅))) ∅ 0 2 = None
  /\ option_map fst
       (displayValue sumHost 3
          (<["0,0" := "=1"]> (<["0,1" := "=A1"]> (<["0,2" := "=B1"]> ∅))) ∅ 0 2)
     = Some "1".
Proof. split; vm_compute; reflexivity. Qed.

(** * The coordinate codec *)

Section Codec.

Lemma string_app_nil_r (s : string) : s +:+ EmptyString = s.
Proof. induction s as [|c s IH]; simpl; [reflexivity | now rewrite IH]. Qed.

Lemma string_app_assoc (a b c : string) : (a +:+ b) +:+ c = a +:+ (b +:+ c).
Proof. induction a as [|x a IH]; simpl; [reflexivity | now rewrite IH]. Qed.

Lemma allChars_app p (a b : string) :
  allChars p (a +:+ b) = allChars p a && allChars p b.
Proof.
  induction a as [|x a IH]; simpl; [reflexivity|].
  rewrite IH. now rewrite andb_assoc.
Qed.

(** A greedy class repetition takes exactly the prefix [a] when [a] is
    made of class characters and what follows does not start with one. *)
Lemma span_app p (a b : string) :
  allChars p a = true ->
  (match b with String c _ => p c = false | EmptyString => True end) ->
  span p (a +:+ b) = (a, b).
Proof.
  intros Ha Hb. induction a as [|x a IH]; simpl in *.
  - destruct b as [|c b]; simpl; [reflexivity|]. now rewrite Hb.
  - apply andb_prop in Ha as [Hx Ha]. rewrite Hx, (IH Ha). reflexivity.
Qed.

Lemma span_all p (a : string) : allChars p a = true -> span p a = (a, EmptyString).
Proof.
  intros Ha. pose proof (span_app p a EmptyString Ha I) as H.
  now rewrite string_app_nil_r in H.
Qed.

(** The two parts of a [span] give the string back, and the first part
    lies in the class. *)
Lemma span_spec p (s : string) :
  let '(a, b) := span p s in
  s = a +:+ b /\ allChars p a = true
  /\ match b with String c _ => p c = false | EmptyString => True end.
Proof.
  induction s as [|c s IH]; simpl; [auto|].
  destruct (p c) eqn:Hc.
  - destruct (span p s) as [a b]. destruct IH as (-> & Ha & Hb).
    simpl. rewrite Hc, Ha. auto.
  - simpl. auto.
Qed.

Lemma isDigit_not_upper c : isDigit c = true -> isUpper c = false.
Proof. unfold isDigit, isUpper. lia. Qed.

Lemma charCode_fromCharCode n : 0 <= n < 256 -> charCode (fromCharCode n) = n.
Proof.
  intros Hn. unfold charCode, fromCharCode.
  rewrite nat_ascii_embedding by lia. lia.
Qed.

(** *** Decimal printing and reading *)

Lemma uint_digits d : allChars isDigit (NilEmpty.string_of_uint d) = true.
Proof. induction d; simpl; auto. Qed.

Lemma uint_nonempty d : d <> Decimal.Nil -> isEmpty (NilEmpty.string_of_uint d) = false.
Proof. destruct d; simpl; congruence. Qed.

Lemma parseDigits_acc d (acc : positive) :
  parseDigits (Z.pos acc) (NilEmpty.string_of_uint d) = Z.pos (Pos.of_uint_acc d acc).
Proof.
  revert acc. induction d; intros acc; simpl; [reflexivity|..];
    match goal with
    | |- parseDigits ?a _ = Z.pos (Pos.of_uint_acc _ ?b) =>
        replace a with (Z.pos b) by (eval_charCode; lia); apply IHd
    end.
Qed.

Lemma parseInt_uint d : parseInt (NilEmpty.string_of_uint d) = Z.of_N (Pos.of_uint d).
Proof.
  unfold parseInt. induction d; simpl; [reflexivity | exact IHd |..];
    match goal with
    | |- parseDigits ?a _ = Z.pos (Pos.of_uint_acc _ ?b) =>
        replace a with (Z.pos b) by (eval_charCode; lia);
        apply parseDigits_acc
    end.
Qed.

(** The shape of a printed integer: an optional minus sign and a
    non-empty run of digits whose value is the magnitude. *)
Lemma numberToString_shape n :
  exists d, d <> Decimal.Nil /\ Z.of_N (Pos.of_uint d) = Z.abs n
    /\ numberToString n =
       (if n <? 0 then String "-" (NilEmpty.string_of_uint d)
        else NilEmpty.string_of_uint d).
Proof.
  unfold numberToString. destruct n as [|p|p]; simpl.
  - exists (Decimal.D0 Decimal.Nil). split; [congruence | split; reflexivity].
  - exists (Pos.to_uint p). pose proof (Unsigned.to_uint_nonnil p) as Hn.
    rewrite Unsigned.of_to. split; [exact Hn | split; [reflexivity |]].
    destruct (Pos.to_uint p); simpl; congruence.
  - exists (Pos.to_uint p). pose proof (Unsigned.to_uint_nonnil p) as Hn.
    rewrite Unsigned.of_to. split; [exact Hn | split; [reflexivity |]].
    destruct (Pos.to_uint p); simpl; congruence.
Qed.

Lemma numberToString_nonneg n :
  0 <= n ->
  allChars isDigit (numberToString n) = true
  /\ isEmpty (numberToString n) = false
  /\ parseInt (numberToString n) = n.
Proof.
  intros Hn. destruct (numberToString_shape n) as (d & Hd & Hv & Hs).
  destruct (Z.ltb_spec n 0); [lia|]. rewrite Hs.
  repeat split; [apply uint_digits | now apply uint_nonempty |].
  rewrite parseInt_uint. lia.
Qed.

Lemma numberOfString_numberToString n : numberOfString (numberToString n) = n.
Proof.
  destruct (numberToString_shape n) as (d & Hd & Hv & Hs). rewrite Hs.
  destruct (Z.ltb_spec n 0).
  - simpl. rewrite parseInt_uint. lia.
  - unfold numberOfString.
    destruct (NilEmpty.string_of_uint d) as [|c s] eqn:E.
    + apply uint_nonempty in Hd. rewrite E in Hd. discriminate.
    + pose proof (uint_digits d) as Hall. rewrite E in Hall. simpl in Hall.
      apply andb_prop in Hall as [Hc _].
      assert (c <> "-"%char) by (intros ->; discriminate).
      rewrite <- E.
      replace (match String c s with String "-"%char digits => - parseInt digits
               | _ => parseInt (NilEmpty.string_of_uint d) end)
        with (parseInt (NilEmpty.string_of_uint d)).
      * rewrite parseInt_uint. lia.
      * destruct c as [[] [] [] [] [] [] [] []]; try reflexivity. congruence.
Qed.

Lemma numberToString_no_comma n :
  allChars (fun c => negb (isComma c)) (numberToString n) = true.
Proof.
  destruct (numberToString_shape n) as (d & _ & _ & Hs). rewrite Hs.
  assert (Hd : allChars (fun c => negb (isComma c)) (NilEmpty.string_of_uint d) = true)
    by (clear; induction d; simpl; auto).
  destruct (n <? 0); simpl; auto.
Qed.

(** Splitting a key at its comma gives the coordinate back, for every
    pair of integers. *)
Lemma keyToCoord_getCellKey row col : keyToCoord (getCellKey row col) = (row, col).
Proof.
  unfold keyToCoord, getCellKey.
  rewrite (span_app _ (numberToString row)); [| apply numberToString_no_comma | reflexivity].
  simpl. rewrite span_all by apply numberToString_no_comma.
  now rewrite !numberOfString_numberToString.
Qed.

Lemma getCellKey_inj r1 c1 r2 c2 :
  getCellKey r1 c1 = getCellKey r2 c2 -> r1 = r2 /\ c1 = c2.
Proof.
  intros H. pose proof (keyToCoord_getCellKey r1 c1) as H1.
  rewrite H, keyToCoord_getCellKey in H1. now inversion H1.
Qed.

Lemma getCellKey_nonempty row col : isEmpty (getCellKey row col) = false.
Proof.
  unfold getCellKey. destruct (numberToString row); reflexivity.
Qed.

(** *** Column letters *)

Lemma colOfLetters_app base (a b : string) :
  colOfLetters base (a +:+ b) = colOfLetters (colOfLetters base a) b.
Proof. revert base. induction a as [|x a IH]; intros base; simpl; auto. Qed.

Lemma log2_shrinks x y : 26 <= x -> 0 <= y -> y < x / 26 -> Z.log2 y < Z.log2 x.
Proof.
  intros Hx Hy Hlt.
  assert (H26 : x / 26 <= x / 2) by (apply Z.div_le_compat_l; lia).
  destruct (Z.eq_dec y 0) as [->|Hne].
  - change (Z.log2 0) with 0. apply Z.log2_pos. lia.
  - apply Z.log2_lt_pow2; [lia|].
    destruct (Z.log2_spec x) as [_ Hup]; [lia|].
    rewrite Z.pow_succ_r in Hup by apply Z.log2_nonneg.
    assert (x / 2 < 2 ^ Z.log2 x) by (apply Z.div_lt_upper_bound; lia).
    lia.
Qed.

(** The loop of [cellKeyToLabel] leaves when its fuel allows one
    iteration per binary digit of the column; what it prepends is a
    non-empty run of capitals that the loop of [labelToCellKey] reads
    back as [col + 1]. *)
Lemma colLoop_letters col :
  0 <= col ->
  forall fuel acc, (Z.to_nat (Z.log2 col) < fuel)%nat ->
  exists letters,
    colLoop fuel col acc = letters +:+ acc
    /\ allChars isUpper letters = true
    /\ isEmpty letters = false
    /\ colOfLetters 0 letters = col + 1.
Proof.
  intros Hcol. pattern col. apply Zlt_0_ind; [clear col Hcol | exact Hcol].
  intros x IH Hx fuel acc Hfuel.
  destruct fuel as [|fuel]; [lia|]. simpl.
  destruct (Z.geb_spec x 0); [|lia].
  rewrite Z.rem_mod_nonneg by lia.
  pose proof (Z.mod_pos_bound x 26 ltac:(lia)) as Hm.
  pose proof (Z.div_mod x 26 ltac:(lia)) as Hdm.
  assert (Hch : charCode (fromCharCode (65 + x mod 26)) = 65 + x mod 26)
    by (apply charCode_fromCharCode; lia).
  destruct (Z.ltb_spec (x / 26 - 1) 0) as [Hlast|Hmore].
  - exists (String (fromCharCode (65 + x mod 26)) EmptyString).
    simpl. unfold isUpper. rewrite Hch.
    assert (x / 26 = 0) by (pose proof (Z.div_pos x 26); lia).
    repeat split; lia.
  - assert (H26 : 26 <= x) by (destruct (Z_lt_le_dec x 26); [rewrite Z.div_small in Hmore; lia | lia]).
    destruct (IH (x / 26 - 1) ltac:(lia) fuel
                (String (fromCharCode (65 + x mod 26)) acc))
      as (letters & Heq & Hup & Hne & Hval).
    { pose proof (log2_shrinks x (x / 26 - 1) H26 Hmore ltac:(lia)).
      pose proof (Z.log2_nonneg (x / 26 - 1)). pose proof (Z.log2_nonneg x). lia. }
    exists (letters +:+ String (fromCharCode (65 + x mod 26)) EmptyString).
    rewrite Heq, string_app_assoc, allChars_app, colOfLetters_app, Hval, Hup.
    simpl. unfold isUpper. rewrite Hch.
    repeat split; try lia.
    destruct letters; [discriminate | reflexivity].
Qed.

(** The anchored pattern [^([A-Z]+)(\d+)$] on a run of capitals followed
    by a run of digits. *)
Lemma matchLabel_app (letters digits : string) :
  allChars isUpper letters = true -> isEmpty letters = false ->
  allChars isDigit digits = true -> isEmpty digits = false ->
  matchLabel (letters +:+ digits) = Some (letters, digits).
Proof.
  intros Hl Hln Hd Hdn. unfold matchLabel.
  rewrite (span_app isUpper letters digits Hl).
  - rewrite (span_all isDigit digits Hd). now rewrite Hln, Hdn.
  - destruct digits as [|c digits]; [exact I|]. simpl in Hd.
    apply andb_prop in Hd as [Hc _]. now apply isDigit_not_upper.
Qed.

(** What the unanchored pattern matches is such a concatenation. *)
Lemma matchAt_shape s label tail :
  matchAt s = Some (label, tail) ->
  exists letters digits,
    label = letters +:+ digits /\ s = label +:+ tail
    /\ allChars isUpper letters = true /\ isEmpty letters = false
    /\ allChars isDigit digits = true /\ isEmpty digits = false.
Proof.
  unfold matchAt. intros H.
  pose proof (span_spec isUpper s) as H1. destruct (span isUpper s) as [letters rest].
  pose proof (span_spec isDigit rest) as H2. destruct (span isDigit rest) as [digits tl].
  destruct H1 as (-> & Hl & _). destruct H2 as (-> & Hd & _).
  destruct (isEmpty letters) eqn:El; [discriminate|].
  destruct (isEmpty digits) eqn:Ed; [discriminate|].
  simpl in H. inversion H; subst. exists letters, digits.
  rewrite string_app_assoc. auto 10.
Qed.

Lemma scan_match fuel s label :
  In (Match label) (scan fuel s) -> exists t tail, matchAt t = Some (label, tail).
Proof.
  revert s. induction fuel as [|fuel IH]; intros s Hin; simpl in Hin; [contradiction|].
  destruct s as [|c s]; [contradiction|].
  destruct (matchAt (String c s)) as [[l tl]|] eqn:E.
  - destruct Hin as [Heq|Hin]; [inversion Heq; subst; eauto | eauto].
  - destruct Hin as [Heq|Hin]; [discriminate | eauto].
Qed.

Lemma string_length_app (a b : string) :
  String.length (a +:+ b) = (String.length a + String.length b)%nat.
Proof. induction a as [|x a IH]; simpl; [reflexivity | now rewrite IH]. Qed.

(** The scanner visits the whole expression: its segments spell the
    expression back, so the fuel of [segments] is enough. *)
Lemma scan_text fuel s :
  (String.length s <= fuel)%nat -> segmentsText (scan fuel s) = s.
Proof.
  revert s. induction fuel as [|fuel IH]; intros s Hlen.
  - destruct s; [reflexivity | simpl in Hlen; lia].
  - destruct s as [|c s]; [reflexivity|]. simpl scan.
    destruct (matchAt (String c s)) as [[label tail]|] eqn:E.
    + apply matchAt_shape in E as (letters & digits & Hl & Hs & _ & Hne & _).
      simpl. rewrite IH; [now rewrite Hs|].
      apply (f_equal String.length) in Hs. rewrite string_length_app in Hs.
      assert (0 < String.length label)%nat
        by (rewrite Hl, string_length_app; destruct letters; [discriminate | simpl; lia]).
      lia.
    + simpl. rewrite IH; [reflexivity | simpl in Hlen; lia].
Qed.

Lemma segments_text expr : segmentsText (segments expr) = expr.
Proof. apply scan_text. lia. Qed.

End Codec.

(** * The host's numbers on the safe integers *)

Section HostNumbers.

Lemma iter_pos_iter {A} (f : A -> A) p x : SpecFloat.iter_pos f p x = Pos.iter f x p.
Proof.
  revert x. induction p as [p IH|p IH|]; intros x; cbn [SpecFloat.iter_pos Pos.iter].
  - rewrite !IH. now rewrite <- !Pos.iter_swap.
  - now rewrite !IH.
  - reflexivity.
Qed.

Lemma digits2_shift m k : digits2_pos (Pos.iter xO m k) = (digits2_pos m + k)%positive.
Proof.
  induction k as [|k IH] using Pos.peano_ind.
  - cbn. lia.
  - rewrite Pos.iter_succ. cbn [digits2_pos]. rewrite IH. lia.
Qed.

Lemma shr_shift q p :
  Pos.iter shr_1 (Build_shr_record (Z.pos (Pos.iter xO q p)) false false) p
  = Build_shr_record (Z.pos q) false false.
Proof.
  induction p as [|p IH] using Pos.peano_ind.
  - reflexivity.
  - rewrite (Pos.iter_succ p _ xO q). rewrite Pos.iter_succ_r. cbn [shr_1 orb]. exact IH.
Qed.

Lemma pos_shift_value m k : Z.pos (Pos.iter xO m k) = Z.pos m * 2 ^ Z.pos k.
Proof.
  induction k as [|k IH] using Pos.peano_ind.
  - cbn. lia.
  - rewrite Pos.iter_succ, Pos2Z.inj_succ, Z.pow_succ_r by lia.
    change (Z.pos (Pos.iter xO m k)~0) with (2 * Z.pos (Pos.iter xO m k)). rewrite IH. lia.
Qed.

(** A mantissa of exactly 53 bits at an exponent in range is kept as it
    is. *)
Lemma round_aux_canonical s m e :
  Z.pos (digits2_pos m) = 53 -> -1074 <= e <= 971 ->
  binary_round_aux 53 1024 s (Z.pos m) e loc_Exact = S754_finite s m e.
Proof.
  intros Hd He. unfold binary_round_aux, shr_fexp, fexp, emin. cbn [Zdigits2 shr_record_of_loc].
  rewrite Hd.
  replace (Z.max (53 + e - 53) (3 - 1024 - 53) - e) with 0 by lia.
  cbn [shr shr_m loc_of_shr_record round_nearest_even Zdigits2]. rewrite Hd.
  replace (Z.max (53 + e - 53) (3 - 1024 - 53) - e) with 0 by lia.
  cbn [shr shr_m].
  replace (e <=? 1024 - 53) with true by (symmetry; apply Z.leb_le; lia). reflexivity.
Qed.

Lemma digits2_size m : digits2_pos m = Pos.size m.
Proof. induction m; cbn; congruence. Qed.

Lemma digits2_bound m : Z.pos m < 2 ^ 53 -> Z.pos (digits2_pos m) <= 53.
Proof.
  intros Hm. rewrite digits2_size.
  destruct (Z.le_gt_cases (Z.pos (Pos.size m)) 53) as [|Hgt]; [assumption|exfalso].
  pose proof (Pos.size_le m) as Hle.
  assert (H54 : 2 ^ 54 <= 2 ^ Z.pos (Pos.size m)) by (apply Z.pow_le_mono_r; lia).
  assert (Hz : 2 ^ Z.pos (Pos.size m) <= 2 * Z.pos m).
  { rewrite <- (Pos2Z.inj_pow 2 (Pos.size m)).
    change (2 * Z.pos m) with (Z.pos m~0). exact Hle. }
  change (2 ^ 54) with (2 * 2 ^ 53) in H54. lia.
Qed.

Lemma digits2_mantissa53 m :
  Z.pos (digits2_pos m) <= 53 -> Z.pos (digits2_pos (mantissa53 m)) = 53.
Proof.
  intros Hd. unfold mantissa53.
  destruct (53 - Z.pos (digits2_pos m)) as [|k|k] eqn:E; [lia| |lia].
  rewrite digits2_shift. lia.
Qed.

Lemma round_aux_shifted s q p e :
  Z.pos (digits2_pos q) = 53 -> -1074 <= e -> e + Z.pos p <= 971 ->
  binary_round_aux 53 1024 s (Z.pos (Pos.iter xO q p)) e loc_Exact
  = S754_finite s q (e + Z.pos p).
Proof.
  intros Hd He Hp. unfold binary_round_aux, shr_fexp, fexp, emin.
  cbn [Zdigits2 shr_record_of_loc]. rewrite digits2_shift, Pos2Z.inj_add, Hd.
  replace (Z.max (53 + Z.pos p + e - 53) (3 - 1024 - 53) - e) with (Z.pos p) by lia.
  cbn [shr]. rewrite iter_pos_iter, shr_shift.
  cbn [shr_m loc_of_shr_record round_nearest_even Zdigits2]. rewrite Hd.
  replace (Z.max (53 + (e + Z.pos p) - 53) (3 - 1024 - 53) - (e + Z.pos p)) with 0 by lia.
  cbn [shr shr_m].
  replace (e + Z.pos p <=? 1024 - 53) with true by (symmetry; apply Z.leb_le; lia).
  reflexivity.
Qed.

Lemma binary_round_integer s m :
  Z.pos (digits2_pos m) <= 53 ->
  binary_round 53 1024 s m 0 = S754_finite s (mantissa53 m) (Z.pos (digits2_pos m) - 53).
Proof.
  intros Hd. unfold binary_round, shl_align, fexp, emin.
  pose proof (digits2_mantissa53 m Hd) as Hm. unfold mantissa53 in *.
  replace (Z.max (Z.pos (digits2_pos m) + 0 - 53) (3 - 1024 - 53) - 0)
    with (- (53 - Z.pos (digits2_pos m))) by lia.
  replace (Z.max (Z.pos (digits2_pos m) + 0 - 53) (3 - 1024 - 53))
    with (Z.pos (digits2_pos m) - 53) by lia.
  destruct (53 - Z.pos (digits2_pos m)) as [|k|k] eqn:E; [| |lia]; cbn [Z.opp].
  - replace (Z.pos (digits2_pos m) - 53) with 0 by lia.
    apply round_aux_canonical; [exact Hm | lia].
  - apply round_aux_canonical; [exact Hm | lia].
Qed.

Lemma binary_round_shifted s m :
  Z.pos (digits2_pos m) <= 53 ->
  binary_round 53 1024 s (Pos.iter xO m 52) (-52) = binary_round 53 1024 s m 0.
Proof.
  intros Hd. rewrite (binary_round_integer s m Hd).
  unfold binary_round, shl_align, fexp, emin. rewrite digits2_shift, Pos2Z.inj_add.
  pose proof (digits2_mantissa53 m Hd) as Hm.
  replace (Z.max (Z.pos (digits2_pos m) + 52 + -52 - 53) (3 - 1024 - 53) - -52)
    with (Z.pos (digits2_pos m) - 1) by lia.
  destruct (Z.pos (digits2_pos m) - 1) as [|p|p] eqn:Ep; [| |lia].
  - assert (H1 : Z.pos (digits2_pos m) = 1) by lia.
    unfold mantissa53 in *. rewrite H1 in *. cbn [Z.sub Z.add Z.opp Z.pos_sub Pos.pred_double] in *.
    change (1 - 53) with (-52). apply round_aux_canonical; [exact Hm | lia].
  - assert (Hsplit : Pos.iter xO m 52 = Pos.iter xO (mantissa53 m) p).
    { unfold mantissa53. destruct (53 - Z.pos (digits2_pos m)) as [|k|k] eqn:Ek; [| |lia].
      - f_equal. lia.
      - rewrite <- Pos.iter_add. f_equal. lia. }
    rewrite Hsplit, (round_aux_shifted s (mantissa53 m) p (-52) Hm); [|lia|lia].
    f_equal. lia.
Qed.

Lemma ofDouble_integer s m :
  Z.pos (digits2_pos m) <= 53 ->
  ofDouble (binary_round 53 1024 s m 0) = Some (if s then Z.neg m else Z.pos m).
Proof.
  intros Hd. rewrite (binary_round_integer s m Hd). unfold ofDouble, mantissa53.
  destruct (53 - Z.pos (digits2_pos m)) as [|k|k] eqn:E; [| |lia].
  - replace (Z.pos (digits2_pos m) - 53) with 0 by lia. cbn [Z.leb Z.compare option_map].
    rewrite Z.pow_0_r, Z.mul_1_r. now destruct s.
  - replace (Z.pos (digits2_pos m) - 53) with (Z.neg k) by lia.
    cbn [Z.leb Z.compare Z.opp]. rewrite pos_shift_value.
    rewrite Z.mod_mul by (apply Z.pow_nonzero; lia). cbn [Z.eqb option_map].
    rewrite Z.div_mul by (apply Z.pow_nonzero; lia). now destruct s.
Qed.

Lemma shl_align_to_52 m :
  Z.pos (digits2_pos m) <= 53 ->
  fst (shl_align (mantissa53 m) (Z.pos (digits2_pos m) - 53) (-52)) = Pos.iter xO m 52.
Proof.
  intros Hd. unfold shl_align, mantissa53.
  destruct (53 - Z.pos (digits2_pos m)) as [|k|k] eqn:Ek; [| |lia];
    (destruct (-52 - (Z.pos (digits2_pos m) - 53)) as [|d|d] eqn:Ed; cbn [fst]; [|lia|]).
  - lia.
  - f_equal. lia.
  - f_equal. lia.
  - rewrite <- Pos.iter_add. f_equal. lia.
Qed.

(** On the integers up to 2^53 - 1 in absolute value, adding 1 is
    exact. *)
Lemma hostAdd_succ (a : Z) :
  - (2 ^ 53 - 1) <= a <= 2 ^ 53 - 1 -> hostAdd a 1 = Some (a + 1).
Proof.
  intros Ha. destruct a as [|m|m]; [reflexivity | |].
  - destruct (Z.eq_dec (Z.pos m) (2 ^ 53 - 1)) as [Hmax|Hmax].
    { rewrite Hmax. vm_compute. reflexivity. }
    assert (Hd : Z.pos (digits2_pos m) <= 53) by (apply digits2_bound; lia).
    assert (Hd' : Z.pos (digits2_pos (m + 1)) <= 53) by (apply digits2_bound; lia).
    unfold hostAdd, toDouble, binary_normalize. rewrite (binary_round_integer false m Hd).
    change (binary_round 53 1024 false 1 0) with (S754_finite false 4503599627370496 (-52)).
    unfold SFadd. cbn [cond_Zopp].
    replace (Z.min (Z.pos (digits2_pos m) - 53) (-52)) with (-52) by lia.
    rewrite (shl_align_to_52 m Hd).
    change (fst (shl_align 4503599627370496 (-52) (-52))) with 4503599627370496%positive.
    assert (Hsum : Z.pos (Pos.iter xO m 52) + Z.pos 4503599627370496
                   = Z.pos (Pos.iter xO (m + 1)%positive 52)).
    { rewrite !pos_shift_value. change (Z.pos 4503599627370496) with (2 ^ 52).
      change (2 ^ Z.pos 52) with (2 ^ 52). lia. }
    rewrite Hsum. unfold binary_normalize. rewrite (binary_round_shifted false (m + 1) Hd').
    rewrite (ofDouble_integer false (m + 1) Hd'). reflexivity.
  - destruct (Pos.eq_dec m 1%positive) as [->|Hone]; [reflexivity|].
    assert (Hd : Z.pos (digits2_pos m) <= 53) by (apply digits2_bound; lia).
    assert (Hd' : Z.pos (digits2_pos (m - 1)) <= 53) by (apply digits2_bound; lia).
    unfold hostAdd, toDouble, binary_normalize. rewrite (binary_round_integer true m Hd).
    change (binary_round 53 1024 false 1 0) with (S754_finite false 4503599627370496 (-52)).
    unfold SFadd. cbn [cond_Zopp].
    replace (Z.min (Z.pos (digits2_pos m) - 53) (-52)) with (-52) by lia.
    rewrite (shl_align_to_52 m Hd).
    change (fst (shl_align 4503599627370496 (-52) (-52))) with 4503599627370496%positive.
    assert (Hsum : - Z.pos (Pos.iter xO m 52) + Z.pos 4503599627370496
                   = Z.neg (Pos.iter xO (m - 1)%positive 52)).
    { rewrite <- Pos2Z.opp_pos, !pos_shift_value. change (Z.pos 4503599627370496) with (2 ^ 52).
      change (2 ^ Z.pos 52) with (2 ^ 52). rewrite Pos2Z.inj_sub by lia. lia. }
    rewrite Hsum. unfold binary_normalize. rewrite (binary_round_shifted true (m - 1) Hd').
    rewrite (ofDouble_integer true (m - 1) Hd'). f_equal. lia.
Qed.

Lemma cellKeyToLabelHost_exact row col :
  - MAX_SAFE_INTEGER <= row <= MAX_SAFE_INTEGER ->
  cellKeyToLabelHost row col = Some (cellKeyToLabel row col).
Proof.
  intros Hrow. unfold cellKeyToLabelHost, cellKeyToLabel.
  now rewrite (hostAdd_succ row Hrow).
Qed.

End HostNumbers.

(** * Properties of the codec *)

(** C4, as stated, fails: 2^53 is a non-negative integer of the host, and
    there [row + 1] rounds back to 2^53.  The label printed for the
    coordinate (2^53, 0) is the one printed for (2^53 - 1, 0), and
    decoding it gives the key of row 2^53 - 1. *)
Lemma roundtrip_breaks_at_two_to_53 :
  cellKeyToLabelHost (2 ^ 53) 0 = Some "A9007199254740992"
  /\ cellKeyToLabelHost (2 ^ 53 - 1) 0 = Some "A9007199254740992"
  /\ labelToCellKey "A9007199254740992" = Some (getCellKey (2 ^ 53 - 1) 0)
  /\ getCellKey (2 ^ 53 - 1) 0 <> getCellKey (2 ^ 53) 0.
Proof. repeat split; try (vm_compute; reflexivity). vm_compute. discriminate. Qed.

(** C4, amended. For every coordinate with both components between 0 and
    2^53 - 1, the integers on which the arithmetic of the host is exact,
    the label that the host prints is the one computed on the integers,
    decoding it succeeds and gives the key of exactly that coordinate,
    and the key splits back into the same row and column. *)
Theorem decode_encode_roundtrip (row col : Z) :
  0 <= row <= MAX_SAFE_INTEGER -> 0 <= col <= MAX_SAFE_INTEGER ->
  cellKeyToLabelHost row col = Some (cellKeyToLabel row col)
  /\ labelToCellKey (cellKeyToLabel row col) = Some (getCellKey row col)
  /\ keyToCoord (getCellKey row col) = (row, col).
Proof.
  intros Hrow [Hcol _].
  split; [apply cellKeyToLabelHost_exact; unfold MAX_SAFE_INTEGER in *; lia|].
  destruct Hrow as [Hrow _]. split; [|apply keyToCoord_getCellKey].
  unfold cellKeyToLabel, labelToCellKey.
  destruct (colLoop_letters col Hcol (colFuel col) EmptyString)
    as (letters & Heq & Hup & Hne & Hval); [unfold colFuel; lia|].
  rewrite Heq, string_app_nil_r.
  destruct (numberToString_nonneg (row + 1)) as (Hd & Hdn & Hparse); [lia|].
  rewrite (matchLabel_app letters _ Hup Hne Hd Hdn).
  rewrite Hparse, Hval. unfold getCellKey.
  now replace (row + 1 - 1) with row by lia; replace (col + 1 - 1) with col by lia.
Qed.

Lemma decode_encode_roundtrip_witness :
  cellKeyToLabelHost 41 730 = Some (cellKeyToLabel 41 730)
  /\ labelToCellKey (cellKeyToLabel 41 730) = Some (getCellKey 41 730)
  /\ keyToCoord (getCellKey 41 730) = (41, 730).
Proof. apply (decode_encode_roundtrip 41 730); unfold MAX_SAFE_INTEGER; lia. Defined.

(** C9. A label whose digit run is the single digit 0 is accepted by
    [labelToCellKey], and the key it returns has row -1: for the label
    A0 the key is that of row -1, column 0. *)
Theorem decode_zero_row (letters : string) :
  allChars isUpper letters = true -> isEmpty letters = false ->
  labelToCellKey (letters +:+ "0") = Some (getCellKey (-1) (colOfLetters 0 letters - 1))
  /\ keyToCoord (getCellKey (-1) (colOfLetters 0 letters - 1))
     = (-1, colOfLetters 0 letters - 1).
Proof.
  intros Hup Hne. split; [|apply keyToCoord_getCellKey].
  unfold labelToCellKey.
  rewrite (matchLabel_app letters "0" Hup Hne eq_refl eq_refl). reflexivity.
Qed.

Lemma decode_zero_row_witness :
  labelToCellKey "A0" = Some "-1,0" /\ keyToCoord "-1,0" = (-1, 0).
Proof. apply (decode_zero_row "A"); reflexivity. Defined.

(** C10. Every token that the scanner of [replace] matches is decoded by
    [labelToCellKey] into a non-empty key, so the callback never takes
    its fallback branch [if (!key) return "0"]. *)
Theorem scanned_label_decodes (expr label : string) :
  In (Match label) (segments expr) ->
  exists key, labelToCellKey label = Some key /\ isEmpty key = false.
Proof.
  intros Hin. apply scan_match in Hin as (t & tail & Hm).
  apply matchAt_shape in Hm as (letters & digits & -> & _ & Hl & Hln & Hd & Hdn).
  unfold labelToCellKey. rewrite (matchLabel_app _ _ Hl Hln Hd Hdn).
  eexists. split; [reflexivity|].
  apply (getCellKey_nonempty (parseInt digits - 1) (colOfLetters 0 letters - 1)).
Qed.

Lemma scanned_label_decodes_witness :
  exists key, labelToCellKey "AB12" = Some key /\ isEmpty key = false.
Proof. apply (scanned_label_decodes "1+AB12*2" "AB12"). vm_compute. auto. Defined.

(** * The evaluator *)

Section EvaluatorFacts.

Variable newFunction : string -> Completion.

Lemma displayValue_S fuel g cache row col :
  displayValue newFunction (S fuel) g cache row col
  = displayBody newFunction (displayValue newFunction fuel g) g cache row col.
Proof. reflexivity. Qed.

Lemma displayPure_S fuel g row col :
  displayPure newFunction (S fuel) g row col
  = option_map fst (displayBody newFunction (pureRecur newFunction fuel g) g ∅ row col).
Proof. reflexivity. Qed.

(** *** More fuel never changes an answer *)

Lemma replaceCallback_mono (r1 r2 : recurT) g cellKey refs cache label x :
  recurLe r1 r2 ->
  replaceCallback r1 g cellKey refs cache label = Some x ->
  replaceCallback r2 g cellKey refs cache label = Some x.
Proof.
  intros Hle. unfold replaceCallback.
  destruct (labelToCellKey label) as [key|]; [|auto].
  destruct (isEmpty key); [auto|].
  destruct (bool_decide (key ∈ refs) || String.eqb key cellKey); [auto|].
  destruct (g !! key) as [val|]; [|auto].
  destruct (isEmpty val); [auto|].
  destruct (startsWithEq val); [|auto].
  destruct (keyToCoord key) as [refRow refCol].
  destruct (r1 cache refRow refCol) as [[text cache']|] eqn:E; [|discriminate].
  now rewrite (Hle _ _ _ _ E).
Qed.

Lemma replaceAll_mono (r1 r2 : recurT) g cellKey segs refs cache x :
  recurLe r1 r2 ->
  replaceAll r1 g cellKey segs refs cache = Some x ->
  replaceAll r2 g cellKey segs refs cache = Some x.
Proof.
  intros Hle. revert refs cache x.
  induction segs as [|[c|label] rest IH]; intros refs cache x; simpl; [auto|..].
  - destruct (replaceAll r1 g cellKey rest refs cache) as [y|] eqn:E; [|discriminate].
    now rewrite (IH _ _ _ E).
  - destruct (replaceCallback r1 g cellKey refs cache label) as [[[o refs'] cache']|] eqn:E;
      [|discriminate].
    rewrite (replaceCallback_mono _ _ _ _ _ _ _ _ Hle E).
    destruct o as [sub|m]; [|auto].
    destruct (replaceAll r1 g cellKey rest refs' cache') as [y|] eqn:E'; [|discriminate].
    now rewrite (IH _ _ _ E').
Qed.

Lemma displayBody_mono (r1 r2 : recurT) g cache row col x :
  recurLe r1 r2 ->
  displayBody newFunction r1 g cache row col = Some x ->
  displayBody newFunction r2 g cache row col = Some x.
Proof.
  intros Hle. unfold displayBody.
  destruct (negb (isEmpty (default EmptyString (cache !! getCellKey row col)))); [auto|].
  destruct (negb (startsWithEq (getValue g row col))); [auto|].
  destruct (replaceAll r1 _ _ _ _ _) as [y|] eqn:E; [|discriminate].
  now rewrite (replaceAll_mono _ _ _ _ _ _ _ _ Hle E).
Qed.

Lemma displayValue_step fuel g : recurLe (displayValue newFunction fuel g)
                                         (displayValue newFunction (S fuel) g).
Proof.
  induction fuel as [|fuel IH]; intros cache row col x; [discriminate|].
  rewrite !displayValue_S. apply displayBody_mono. exact IH.
Qed.

Lemma displayValue_mono fuel fuel' g cache row col x :
  (fuel <= fuel')%nat ->
  displayValue newFunction fuel g cache row col = Some x ->
  displayValue newFunction fuel' g cache row col = Some x.
Proof.
  induction 1 as [|m _ IH]; [auto|]. intros H. now apply displayValue_step, IH.
Qed.

Lemma displayPure_step fuel g row col text :
  displayPure newFunction fuel g row col = Some text ->
  displayPure newFunction (S fuel) g row col = Some text.
Proof.
  revert row col text. induction fuel as [|fuel IH]; intros row col text; [discriminate|].
  rewrite !displayPure_S.
  destruct (displayBody newFunction (pureRecur newFunction fuel g) g ∅ row col)
    as [x|] eqn:E; [|discriminate].
  intros Hx. erewrite displayBody_mono; [exact Hx | | exact E].
  intros cache r c y. unfold pureRecur.
  destruct (displayPure newFunction fuel g r c) as [t|] eqn:Et; [|discriminate].
  now rewrite (IH _ _ _ Et).
Qed.

Lemma displayPure_mono fuel fuel' g row col text :
  (fuel <= fuel')%nat ->
  displayPure newFunction fuel g row col = Some text ->
  displayPure newFunction fuel' g row col = Some text.
Proof.
  induction 1 as [|m _ IH]; [auto|]. intros H. now apply displayPure_step, IH.
Qed.

Lemma pureRecur_mono fuel fuel' g :
  (fuel <= fuel')%nat -> recurLe (pureRecur newFunction fuel g) (pureRecur newFunction fuel' g).
Proof.
  intros Hle cache r c y. unfold pureRecur.
  destruct (displayPure newFunction fuel g r c) as [t|] eqn:Et; [|discriminate].
  now rewrite (displayPure_mono _ _ _ _ _ _ Hle Et).
Qed.

(** The grid determines at most one display text per cell. *)
Lemma displayPure_functional f1 f2 g row col t1 t2 :
  displayPure newFunction f1 g row col = Some t1 ->
  displayPure newFunction f2 g row col = Some t2 -> t1 = t2.
Proof.
  intros H1 H2.
  apply (displayPure_mono _ (f1 + f2)%nat) in H1; [|lia].
  apply (displayPure_mono _ (f1 + f2)%nat) in H2; [|lia]. congruence.
Qed.

(** *** The cases of the callback *)

Lemma labelToCellKey_key label key :
  labelToCellKey label = Some key -> exists row col, key = getCellKey row col.
Proof.
  unfold labelToCellKey. destruct (matchLabel label) as [[letters digits]|]; [|discriminate].
  intros [= <-]. eexists _, _. reflexivity.
Qed.

Lemma labelToCellKey_nonempty label key :
  labelToCellKey label = Some key -> isEmpty key = false.
Proof.
  intros H. apply labelToCellKey_key in H as (r & c & ->). apply getCellKey_nonempty.
Qed.

Lemma checkCircular_false key (refs : gset string) cellKey :
  key ∉ refs -> key <> cellKey ->
  bool_decide (key ∈ refs) || String.eqb key cellKey = false.
Proof.
  intros Hn Hne. rewrite bool_decide_eq_false_2 by exact Hn.
  simpl. now apply String.eqb_neq.
Qed.

Lemma checkCircular_true key (refs : gset string) cellKey :
  key ∈ refs \/ key = cellKey ->
  bool_decide (key ∈ refs) || String.eqb key cellKey = true.
Proof.
  intros [Hin| ->].
  - now rewrite bool_decide_eq_true_2.
  - rewrite String.eqb_refl. apply orb_true_r.
Qed.

Lemma replaceCallback_circular (recur : recurT) g cellKey refs cache label key :
  labelToCellKey label = Some key ->
  key ∈ refs \/ key = cellKey ->
  replaceCallback recur g cellKey refs cache label
  = Some (Throw circularMessage, refs, cache).
Proof.
  intros Hk Hc. unfold replaceCallback.
  now rewrite Hk, (labelToCellKey_nonempty _ _ Hk), (checkCircular_true _ _ _ Hc).
Qed.

Lemma replaceCallback_blank (recur : recurT) g cellKey refs cache label key :
  labelToCellKey label = Some key ->
  key ∉ refs -> key <> cellKey ->
  default EmptyString (g !! key) = EmptyString ->
  replaceCallback recur g cellKey refs cache label
  = Some (Normal "0", refs ∪ {[ key ]}, cache).
Proof.
  intros Hk Hn Hne Hg. unfold replaceCallback.
  rewrite Hk, (labelToCellKey_nonempty _ _ Hk), (checkCircular_false _ _ _ Hn Hne).
  destruct (g !! key) as [val|]; [|reflexivity]. simpl in Hg. now subst val.
Qed.

Lemma replaceCallback_formula (recur : recurT) g cellKey refs cache label key val :
  labelToCellKey label = Some key ->
  key ∉ refs -> key <> cellKey ->
  g !! key = Some val -> startsWithEq val = true ->
  replaceCallback recur g cellKey refs cache label
  = match recur cache (keyToCoord key).1 (keyToCoord key).2 with
    | None => None
    | Some (text, cache') => Some (Normal text, refs ∪ {[ key ]}, cache')
    end.
Proof.
  intros Hk Hn Hne Hg Hf. unfold replaceCallback.
  rewrite Hk, (labelToCellKey_nonempty _ _ Hk), (checkCircular_false _ _ _ Hn Hne), Hg, Hf.
  destruct val; [discriminate|]. simpl. now destruct (keyToCoord key).
Qed.

Lemma replaceCallback_literal (recur : recurT) g cellKey refs cache label key val :
  labelToCellKey label = Some key ->
  key ∉ refs -> key <> cellKey ->
  g !! key = Some val -> isEmpty val = false -> startsWithEq val = false ->
  replaceCallback recur g cellKey refs cache label
  = Some (Normal (if isNaNNumber val then quote +:+ val +:+ quote else val),
          refs ∪ {[ key ]}, cache).
Proof.
  intros Hk Hn Hne Hg He Hf. unfold replaceCallback.
  rewrite Hk, (labelToCellKey_nonempty _ _ Hk), (checkCircular_false _ _ _ Hn Hne), Hg, He, Hf.
  now destruct (isNaNNumber val).
Qed.

(** *** A two-cell cycle *)

(** With A1 holding [=B1] and B1 holding [=A1], neither cell is
    evaluated within any number of nested calls: each call finds a key
    that differs from its own and is new to its own set, and calls
    again. *)
Lemma mutual_cycle_diverges g :
  g !! "0,0" = Some "=B1" -> g !! "0,1" = Some "=A1" ->
  forall fuel cache, cacheMiss cache "0,0" -> cacheMiss cache "0,1" ->
    displayValue newFunction fuel g cache 0 0 = None
    /\ displayValue newFunction fuel g cache 0 1 = None.
Proof.
  intros HA HB. induction fuel as [|fuel IH]; intros cache MA MB; [split; reflexivity|].
  destruct (IH cache MA MB) as [IHA IHB].
  rewrite !displayValue_S. unfold displayBody, getValue.
  change (getCellKey 0 0) with "0,0". change (getCellKey 0 1) with "0,1".
  rewrite MA, MB, HA, HB. cbn [from_option id].
  change (segments (slice1 "=B1")) with [Match "B1"].
  change (segments (slice1 "=A1")) with [Match "A1"].
  cbn [negb isEmpty startsWithEq replaceAll].
  change (charCode "=" =? 61) with true. cbn [negb].
  rewrite (replaceCallback_formula _ g "0,0" ∅ cache "B1" "0,1" "=A1");
    [| reflexivity | set_solver | discriminate | exact HB | reflexivity].
  rewrite (replaceCallback_formula _ g "0,1" ∅ cache "A1" "0,0" "=B1");
    [| reflexivity | set_solver | discriminate | exact HA | reflexivity].
  change (keyToCoord "0,1") with (0, 1). change (keyToCoord "0,0") with (0, 0).
  cbn [fst snd]. now rewrite IHA, IHB.
Qed.

(** *** Evaluation returns when references are ranked *)





(** *** Formulas without reference tokens *)

Lemma replaceAll_verbatim (recur : recurT) g cellKey fuel s refs cache :
  (forall label, ~ In (Match label) (scan fuel s)) ->
  (String.length s <= fuel)%nat ->
  replaceAll recur g cellKey (scan fuel s) refs cache = Some (Normal s, cache).
Proof.
  revert s. induction fuel as [|fuel IH]; intros s Hno Hlen.
  - destruct s; [reflexivity | simpl in Hlen; lia].
  - destruct s as [|c s]; [reflexivity|]. simpl scan in *.
    destruct (matchAt (String c s)) as [[l tl]|].
    + exfalso. apply (Hno l). now left.
    + simpl. rewrite IH; [reflexivity | | simpl in Hlen; lia].
      intros label Hin. apply (Hno label). now right.
Qed.

Lemma formula_settles g cache row col fuel parsedExpr cache' :
  cacheMiss cache (getCellKey row col) ->
  startsWithEq (getValue g row col) = true ->
  replaceAll (displayValue newFunction fuel g) g (getCellKey row col)
    (segments (slice1 (getValue g row col))) ∅ cache = Some (Normal parsedExpr, cache') ->
  displayValue newFunction (S fuel) g cache row col
  = Some (settle (newFunction ("return " +:+ parsedExpr)),
          <[getCellKey row col := settle (newFunction ("return " +:+ parsedExpr))]> cache').
Proof.
  intros Hmiss Hf Hrep. rewrite displayValue_S. unfold displayBody.
  now rewrite Hmiss, Hf, Hrep.
Qed.

Lemma formula_without_refs g cache row col expr fuel :
  cacheMiss cache (getCellKey row col) ->
  g !! getCellKey row col = Some (String "=" expr) ->
  (forall label, ~ In (Match label) (segments expr)) ->
  displayValue newFunction (S fuel) g cache row col
  = Some (settle (newFunction ("return " +:+ expr)),
          <[getCellKey row col := settle (newFunction ("return " +:+ expr))]> cache).
Proof.
  intros Hmiss Hg Hno. rewrite displayValue_S. unfold displayBody, getValue.
  rewrite Hmiss, Hg. cbn [from_option id negb isEmpty startsWithEq slice1].
  change (charCode "=" =? 61) with true. cbn [negb].
  unfold segments. now rewrite replaceAll_verbatim.
Qed.

(** *** The replacement over a concatenation *)

Lemma replaceCallback_outcome (recur : recurT) g cellKey refs cache label o refs' cache' :
  replaceCallback recur g cellKey refs cache label = Some (o, refs', cache') ->
  match o with
  | Normal _ => refs' = refs ∪ keysOf [Match label]
  | Throw message => message = circularMessage /\ cache' = cache
  end.
Proof.
  unfold replaceCallback. cbn [keysOf].
  destruct (labelToCellKey label) as [key|]; [|intros ?; simplify_eq; set_solver].
  destruct (isEmpty key); [intros ?; simplify_eq; set_solver|].
  destruct (bool_decide (key ∈ refs) || String.eqb key cellKey);
    [intros ?; simplify_eq; auto|].
  destruct (g !! key) as [val|]; [|intros ?; simplify_eq; set_solver].
  destruct (isEmpty val); [intros ?; simplify_eq; set_solver|].
  destruct (startsWithEq val).
  - destruct (keyToCoord key) as [refRow refCol].
    destruct (recur cache refRow refCol) as [[text c']|]; [|discriminate].
    intros ?; simplify_eq; set_solver.
  - destruct (isNaNNumber val); intros ?; simplify_eq; set_solver.
Qed.

Lemma keysOf_cons seg rest : keysOf (seg :: rest) = keysOf [seg] ∪ keysOf rest.
Proof.
  destruct seg as [c|label]; cbn [keysOf]; [set_solver|].
  destruct (labelToCellKey label) as [key|]; [|set_solver].
  destruct (isEmpty key); set_solver.
Qed.

Lemma replaceAll_throw (recur : recurT) g cellKey segs refs cache message cache' :
  replaceAll recur g cellKey segs refs cache = Some (Throw message, cache') ->
  message = circularMessage.
Proof.
  revert refs cache. induction segs as [|[c|label] rest IH]; intros refs cache; simpl.
  - discriminate.
  - destruct (replaceAll recur g cellKey rest refs cache) as [[[out|m] c']|] eqn:E;
      [discriminate | | discriminate].
    intros ?; simplify_eq. eauto.
  - destruct (replaceCallback recur g cellKey refs cache label) as [[[[sub|m] refs1] c1]|] eqn:E;
      [| | discriminate].
    + destruct (replaceAll recur g cellKey rest refs1 c1) as [[[out|m] c']|] eqn:E';
        [discriminate | | discriminate].
      intros ?; simplify_eq. eauto.
    + intros ?; simplify_eq. now apply replaceCallback_outcome in E as [-> _].
Qed.

Lemma replaceAll_app (recur : recurT) g cellKey pre rest refs cache :
  replaceAll recur g cellKey (pre ++ rest) refs cache
  = match replaceAll recur g cellKey pre refs cache with
    | None => None
    | Some (Throw message, cache') => Some (Throw message, cache')
    | Some (Normal out, cache') =>
        match replaceAll recur g cellKey rest (refs ∪ keysOf pre) cache' with
        | Some (Normal out', cache'') => Some (Normal (out +:+ out'), cache'')
        | other => other
        end
    end.
Proof.
  revert refs cache. induction pre as [|[c|label] pre IH]; intros refs cache.
  - cbn [app replaceAll keysOf]. rewrite (right_id_L ∅ (∪)).
    now destruct (replaceAll recur g cellKey rest refs cache) as [[[out|m] c']|].
  - cbn [app replaceAll keysOf]. rewrite IH.
    destruct (replaceAll recur g cellKey pre refs cache) as [[[out|m] c']|]; [|reflexivity..].
    now destruct (replaceAll recur g cellKey rest (refs ∪ keysOf pre) c') as [[[out'|m] c'']|].
  - rewrite (keysOf_cons (Match label) pre). cbn [app replaceAll].
    destruct (replaceCallback recur g cellKey refs cache label) as [[[[sub|m] refs1] c1]|] eqn:E;
      [| reflexivity..].
    apply replaceCallback_outcome in E. rewrite IH, E.
    destruct (replaceAll recur g cellKey pre (refs ∪ keysOf [Match label]) c1)
      as [[[out|m] c']|]; [|reflexivity..].
    rewrite (assoc_L (∪)).
    destruct (replaceAll recur g cellKey rest (refs ∪ keysOf [Match label] ∪ keysOf pre) c')
      as [[[out'|m] c'']|]; [|reflexivity..].
    now rewrite string_app_assoc.
Qed.

(** *** A token that fails the circular-reference check *)

Lemma circular_token_general g cache row col pre label post key fuel r cacheMid :
  cacheMiss cache (getCellKey row col) ->
  startsWithEq (getValue g row col) = true ->
  segments (slice1 (getValue g row col)) = (pre ++ Match label :: post)%list ->
  labelToCellKey label = Some key ->
  key ∈ keysOf pre \/ key = getCellKey row col ->
  replaceAll (displayValue newFunction fuel g) g (getCellKey row col) pre ∅ cache
  = Some (r, cacheMid) ->
  displayValue newFunction (S fuel) g cache row col
  = Some (circularMessage, <[getCellKey row col := circularMessage]> cacheMid).
Proof.
  intros Hmiss Hf Hsegs Hk Hc Hpre.
  rewrite displayValue_S. unfold displayBody. rewrite Hmiss, Hf, Hsegs, replaceAll_app, Hpre.
  cbn [negb isEmpty].
  destruct r as [out|m].
  - cbn [replaceAll]. rewrite (replaceCallback_circular _ _ _ _ _ _ key Hk); [reflexivity|].
    destruct Hc as [Hc|Hc]; [left; set_solver | now right].
  - now rewrite (replaceAll_throw _ _ _ _ _ _ _ _ Hpre).
Qed.

(** *** A token that refers to a cell without content *)

Lemma blank_token_general (recur : recurT) g cellKey refs cache label key rest :
  labelToCellKey label = Some key ->
  key ∉ refs -> key <> cellKey ->
  default EmptyString (g !! key) = EmptyString ->
  replaceAll recur g cellKey (Match label :: rest) refs cache
  = match replaceAll recur g cellKey rest (refs ∪ {[ key ]}) cache with
    | Some (Normal out, cache') => Some (Normal ("0" +:+ out), cache')
    | other => other
    end.
Proof.
  intros Hk Hn Hne Hg. cbn [replaceAll].
  now rewrite (replaceCallback_blank _ _ _ _ _ _ key Hk Hn Hne Hg).
Qed.

(** *** A token that refers to a literal *)

Lemma literal_plus_one g val fuel :
  g !! "0,0" = Some val -> g !! "0,1" = Some "=A1+1" ->
  isEmpty val = false -> startsWithEq val = false ->
  displayValue newFunction (S fuel) g ∅ 0 1
  = Some (settle (newFunction
                    ("return " +:+ (if isNaNNumber val then quote +:+ val +:+ quote else val)
                     +:+ "+1")),
          {[ "0,1" := settle (newFunction
                    ("return " +:+ (if isNaNNumber val then quote +:+ val +:+ quote else val)
                     +:+ "+1")) ]}).
Proof.
  intros HA HB He Hf. rewrite displayValue_S. unfold displayBody, getValue.
  change (getCellKey 0 1) with "0,1". rewrite HB, lookup_empty.
  cbn [from_option id negb isEmpty startsWithEq].
  change (charCode "=" =? 61) with true. cbn [negb].
  change (segments (slice1 "=A1+1")) with [Match "A1"; Verbatim "+"; Verbatim "1"].
  cbn [replaceAll].
  rewrite (replaceCallback_literal _ g "0,1" ∅ ∅ "A1" "0,0" val);
    [| reflexivity | set_solver | discriminate | exact HA | exact He | exact Hf ].
  reflexivity.
Qed.

(** *** The cache against the cache-free evaluation *)

Lemma consistent_empty g : consistent newFunction g ∅.
Proof. intros key text H. rewrite lookup_empty in H. discriminate. Qed.

Lemma consistent_insert g cache row col text fuel :
  consistent newFunction g cache ->
  displayPure newFunction fuel g row col = Some text ->
  consistent newFunction g (<[getCellKey row col := text]> cache).
Proof.
  intros Hc Hp key text' Hl.
  destruct (decide (getCellKey row col = key)) as [<-|Hne].
  - rewrite lookup_insert_eq in Hl. injection Hl as <-. eauto.
  - rewrite lookup_insert_ne in Hl by exact Hne. eauto.
Qed.

Lemma consistent_hit g cache row col :
  consistent newFunction g cache ->
  isEmpty (default EmptyString (cache !! getCellKey row col)) = false ->
  exists fuel,
    displayPure newFunction fuel g row col
    = Some (default EmptyString (cache !! getCellKey row col)).
Proof.
  intros Hc Hne. destruct (cache !! getCellKey row col) as [text|] eqn:E; [|discriminate].
  destruct (Hc _ _ E) as (r & c & fuel & Hk & Hp).
  apply getCellKey_inj in Hk as [-> ->]. eauto.
Qed.

Lemma replaceCallback_sound fuel g cellKey refs cache label o refs' cache' :
  cachedSound newFunction fuel g ->
  consistent newFunction g cache ->
  replaceCallback (displayValue newFunction fuel g) g cellKey refs cache label
  = Some (o, refs', cache') ->
  consistent newFunction g cache'
  /\ exists fuel',
      replaceCallback (pureRecur newFunction fuel' g) g cellKey refs ∅ label
      = Some (o, refs', ∅).
Proof.
  intros IH Hc. unfold replaceCallback.
  destruct (labelToCellKey label) as [key|];
    [|intros ?; simplify_eq; split; [assumption | now exists 0%nat]].
  destruct (isEmpty key); [intros ?; simplify_eq; split; [assumption | now exists 0%nat]|].
  destruct (bool_decide (key ∈ refs) || String.eqb key cellKey);
    [intros ?; simplify_eq; split; [assumption | now exists 0%nat]|].
  destruct (g !! key) as [val|];
    [|intros ?; simplify_eq; split; [assumption | now exists 0%nat]].
  destruct (isEmpty val); [intros ?; simplify_eq; split; [assumption | now exists 0%nat]|].
  destruct (startsWithEq val).
  - destruct (keyToCoord key) as [refRow refCol].
    destruct (displayValue newFunction fuel g cache refRow refCol) as [[text c1]|] eqn:E;
      [|discriminate].
    intros ?; simplify_eq.
    destruct (IH _ _ _ _ _ Hc E) as [Hc1 [fuel' Hp]].
    split; [assumption|]. exists fuel'. unfold pureRecur. now rewrite Hp.
  - destruct (isNaNNumber val); intros ?; simplify_eq;
      (split; [assumption | now exists 0%nat]).
Qed.

Lemma replaceAll_sound fuel g cellKey segs refs cache o cache' :
  cachedSound newFunction fuel g ->
  consistent newFunction g cache ->
  replaceAll (displayValue newFunction fuel g) g cellKey segs refs cache = Some (o, cache') ->
  consistent newFunction g cache'
  /\ exists fuel',
      replaceAll (pureRecur newFunction fuel' g) g cellKey segs refs ∅ = Some (o, ∅).
Proof.
  intros IH. revert refs cache o cache'.
  induction segs as [|[c|label] rest IHs]; intros refs cache o cache' Hc; cbn [replaceAll].
  - intros ?; simplify_eq. split; [assumption | now exists 0%nat].
  - destruct (replaceAll (displayValue newFunction fuel g) g cellKey rest refs cache)
      as [[o1 c1]|] eqn:E; [|discriminate].
    destruct (IHs _ _ _ _ Hc E) as [Hc1 [fuel' Hp]].
    intros Hres. split.
    + destruct o1; simplify_eq; assumption.
    + exists fuel'. rewrite Hp. destruct o1; simplify_eq; reflexivity.
  - destruct (replaceCallback (displayValue newFunction fuel g) g cellKey refs cache label)
      as [[[o1 refs1] c1]|] eqn:E; [|discriminate].
    destruct (replaceCallback_sound _ _ _ _ _ _ _ _ _ IH Hc E) as [Hc1 [f1 Hp1]].
    destruct o1 as [sub|m].
    + destruct (replaceAll (displayValue newFunction fuel g) g cellKey rest refs1 c1)
        as [[o2 c2]|] eqn:E2; [|discriminate].
      destruct (IHs _ _ _ _ Hc1 E2) as [Hc2 [f2 Hp2]].
      intros Hres. split.
      * destruct o2; simplify_eq; assumption.
      * exists (f1 + f2)%nat.
        rewrite (replaceCallback_mono _ _ _ _ _ _ _ _
                   (pureRecur_mono f1 (f1 + f2) g ltac:(lia)) Hp1).
        rewrite (replaceAll_mono _ _ _ _ _ _ _ _
                   (pureRecur_mono f2 (f1 + f2) g ltac:(lia)) Hp2).
        destruct o2; simplify_eq; reflexivity.
    + intros ?; simplify_eq. split; [assumption|]. exists f1. now rewrite Hp1.
Qed.

Lemma displayPure_literal g row col :
  startsWithEq (getValue g row col) = false ->
  displayPure newFunction 1 g row col = Some (getValue g row col).
Proof.
  intros Hf. rewrite displayPure_S. unfold displayBody.
  rewrite lookup_empty. cbn [from_option id isEmpty negb]. now rewrite Hf.
Qed.

Lemma displayValue_sound fuel g : cachedSound newFunction fuel g.
Proof.
  induction fuel as [|fuel IH]; intros cache row col text cache' Hc; [discriminate|].
  rewrite displayValue_S. unfold displayBody.
  destruct (isEmpty (default EmptyString (cache !! getCellKey row col))) eqn:Hhit;
    cbn [negb].
  2:{ intros ?; simplify_eq. split; [assumption|]. now apply consistent_hit. }
  destruct (startsWithEq (getValue g row col)) eqn:Hf; cbn [negb].
  2:{ intros ?; simplify_eq. pose proof (displayPure_literal _ _ _ Hf) as Hp.
      split; [now apply (consistent_insert _ _ _ _ _ 1%nat) | eauto]. }
  destruct (replaceAll (displayValue newFunction fuel g) g (getCellKey row col)
              (segments (slice1 (getValue g row col))) ∅ cache) as [[o c1]|] eqn:E;
    [|discriminate].
  destruct (replaceAll_sound _ _ _ _ _ _ _ _ IH Hc E) as [Hc1 [fuel' Hp]].
  assert (Hpure : forall t,
             (match o with
              | Normal parsedExpr => settle (newFunction ("return " +:+ parsedExpr))
              | Throw errorMsg => errorMsg
              end) = t ->
             displayPure newFunction (S fuel') g row col = Some t).
  { intros t <-. rewrite displayPure_S. unfold displayBody.
    rewrite lookup_empty. cbn [from_option id isEmpty negb]. rewrite Hf, Hp.
    cbn [negb]. now destruct o. }
  intros Hres. destruct o as [parsedExpr|errorMsg]; simplify_eq;
    (split; [eapply consistent_insert; [exact Hc1 | now apply Hpure] | eauto]).
Qed.




(** Every sequence of calls keeps the cache consistent with the grid. *)
Lemma run_consistent fuel ops e texts e' :
  consistent newFunction (gridData e) (calculationCache e) ->
  run newFunction fuel ops e = Some (texts, e') ->
  consistent newFunction (gridData e') (calculationCache e').
Proof.
  revert e texts. induction ops as [|[row col value|row col] rest IH]; intros e texts Hc;
    cbn [run].
  - intros ?; simplify_eq. assumption.
  - apply IH. apply consistent_empty.
  - unfold display.
    destruct (displayValue newFunction fuel (gridData e) (calculationCache e) row col)
      as [[text c1]|] eqn:E; [|discriminate].
    destruct (run newFunction fuel rest (Engine (gridData e) c1)) as [[ts e2]|] eqn:E2;
      [|discriminate].
    intros ?; simplify_eq. apply (IH (Engine (gridData e) c1) ts); [|exact E2].
    cbn [gridData calculationCache]. now destruct (displayValue_sound _ _ _ _ _ _ _ Hc E).
Qed.


End EvaluatorFacts.

(** * Properties of the evaluator *)

(** C1. After [setRaw(A1, "=B1")] and [setRaw(B1, "=A1")] the evaluation
    of A1 and that of B1 never return, whatever number of nested calls
    is allowed: the two-cell cycle is not detected, and in particular
    neither cell displays the circular-reference marker. *)
Theorem mutual_cycle_not_detected (newFunction : string -> Completion)
    (e : engine) (fuel : nat) :
  display newFunction fuel (setValue (setValue e 0 0 "=B1") 0 1 "=A1") 0 0 = None
  /\ display newFunction fuel (setValue (setValue e 0 0 "=B1") 0 1 "=A1") 0 1 = None.
Proof.
  unfold display, setValue. cbn [gridData calculationCache].
  change (getCellKey 0 0) with "0,0". change (getCellKey 0 1) with "0,1".
  destruct (mutual_cycle_diverges newFunction
              (<["0,1" := "=A1"]> (<["0,0" := "=B1"]> (gridData e)))) with
    (fuel := fuel) (cache := (∅ : gmap string string)) as [-> ->];
    [| | reflexivity | reflexivity | split; reflexivity].
  - rewrite lookup_insert_ne by discriminate. apply lookup_insert_eq.
  - apply lookup_insert_eq.
Qed.

(** C3, as stated, fails: a cell holding [=Date.now()] makes the
    evaluator hand the text [Date.now()], which is outside the bounded
    grammar, to the host, and display whatever the host answers. *)
Lemma host_receives_unbounded_text :
  parsedExprOf sumHost 0 (<["0,0" := "=Date.now()"]> ∅) ∅ 0 0 = Some "Date.now()"
  /\ lexBounded None "Date.now()" = false
  /\ (forall host : string -> Completion,
         option_map fst (displayValue host 1 (<["0,0" := "=Date.now()"]> ∅) ∅ 0 0)
         = Some (settle (host "return Date.now()"))).
Proof.
  split; [vm_compute; reflexivity | split; [reflexivity|]].
  intros host.
  rewrite (formula_without_refs host _ ∅ 0 0 "Date.now()" 0); [reflexivity | reflexivity | | ].
  - change (getCellKey 0 0) with "0,0". apply lookup_insert_eq.
  - vm_compute. intuition discriminate.
Qed.

(** C3, amended. The arithmetic step is the host's general evaluator,
    with no grammar in between: once the references of a formula are
    substituted, the resulting text, whatever it is, is handed to
    [new Function] behind [return], and the text that the host
    evaluation settles to is displayed and cached; for a formula whose
    expression holds no reference token, the text handed over is the
    expression as written. *)
Theorem formula_text_goes_to_host (newFunction : string -> Completion) :
  (forall g cache row col fuel parsedExpr cache',
      cacheMiss cache (getCellKey row col) ->
      startsWithEq (getValue g row col) = true ->
      replaceAll (displayValue newFunction fuel g) g (getCellKey row col)
        (segments (slice1 (getValue g row col))) ∅ cache = Some (Normal parsedExpr, cache') ->
      displayValue newFunction (S fuel) g cache row col
      = Some (settle (newFunction ("return " +:+ parsedExpr)),
              <[getCellKey row col := settle (newFunction ("return " +:+ parsedExpr))]> cache'))
  /\ (forall g cache row col expr fuel,
         cacheMiss cache (getCellKey row col) ->
         g !! getCellKey row col = Some (String "=" expr) ->
         (forall label, ~ In (Match label) (segments expr)) ->
         displayValue newFunction (S fuel) g cache row col
         = Some (settle (newFunction ("return " +:+ expr)),
                 <[getCellKey row col := settle (newFunction ("return " +:+ expr))]> cache)).
Proof.
  split.
  - intros. now apply formula_settles.
  - intros. now apply formula_without_refs.
Qed.

Lemma formula_text_goes_to_host_witness :
  displayValue sumHost 1 (<["0,0" := "=1+2+3"]> ∅) ∅ 0 0
  = Some (settle (sumHost ("return " +:+ "1+2+3")),
          <[getCellKey 0 0 := settle (sumHost ("return " +:+ "1+2+3"))]> ∅).
Proof.
  apply (proj2 (formula_text_goes_to_host sumHost)
           (<["0,0" := "=1+2+3"]> ∅) ∅ 0 0 "1+2+3" 0%nat).
  - reflexivity.
  - reflexivity.
  - vm_compute. intuition discriminate.
Defined.

(** C5. In the evaluation of a formula cell that is not served from the
    cache, a reference token whose key is that of the cell itself, or
    that of an earlier token of the same expression, makes the
    evaluation end with the text "Circular reference" as soon as the
    scan of the tokens before it has returned: the cache at the end is
    the cache left by those earlier tokens, plus the marker for the
    cell.  In particular A1 holding [=A1] or [=A1+A1], and B1 holding
    [=A1+A1] over an A1 that is not a formula, display the marker. *)
Theorem circular_reference_token (newFunction : string -> Completion) :
  (forall g cache row col pre label post key fuel r cacheMid,
      cacheMiss cache (getCellKey row col) ->
      startsWithEq (getValue g row col) = true ->
      segments (slice1 (getValue g row col)) = (pre ++ Match label :: post)%list ->
      labelToCellKey label = Some key ->
      key ∈ keysOf pre \/ key = getCellKey row col ->
      replaceAll (displayValue newFunction fuel g) g (getCellKey row col) pre ∅ cache
      = Some (r, cacheMid) ->
      displayValue newFunction (S fuel) g cache row col
      = Some ("Circular reference", <[getCellKey row col := "Circular reference"]> cacheMid))
  /\ (forall g cache fuel,
         cacheMiss cache "0,0" ->
         g !! "0,0" = Some "=A1" \/ g !! "0,0" = Some "=A1+A1" ->
         displayValue newFunction (S fuel) g cache 0 0
         = Some ("Circular reference", <["0,0" := "Circular reference"]> cache))
  /\ (forall g cache fuel,
         cacheMiss cache "0,1" ->
         g !! "0,1" = Some "=A1+A1" ->
         startsWithEq (default EmptyString (g !! "0,0")) = false ->
         displayValue newFunction (S fuel) g cache 0 1
         = Some ("Circular reference", <["0,1" := "Circular reference"]> cache)).
Proof.
  split; [|split].
  - intros. eapply circular_token_general; eauto.
  - intros g cache fuel Hmiss [Hg|Hg].
    + apply (circular_token_general newFunction g cache 0 0 [] "A1" [] "0,0" fuel
               (Normal EmptyString) cache); try reflexivity; try exact Hmiss.
      * unfold getValue. change (getCellKey 0 0) with "0,0". now rewrite Hg.
      * unfold getValue. change (getCellKey 0 0) with "0,0". now rewrite Hg.
      * now right.
    + apply (circular_token_general newFunction g cache 0 0 [] "A1"
               [Verbatim "+"; Match "A1"] "0,0" fuel
               (Normal EmptyString) cache); try reflexivity; try exact Hmiss.
      * unfold getValue. change (getCellKey 0 0) with "0,0". now rewrite Hg.
      * unfold getValue. change (getCellKey 0 0) with "0,0". now rewrite Hg.
      * now right.
  - intros g cache fuel Hmiss Hg HA.
    assert (Hpre : exists sub,
               replaceAll (displayValue newFunction fuel g) g "0,1"
                 [Match "A1"; Verbatim "+"] ∅ cache = Some (Normal sub, cache)).
    { cbn [replaceAll].
      destruct (g !! "0,0") as [val|] eqn:E; cbn [from_option id] in HA.
      - destruct (isEmpty val) eqn:Ev.
        + rewrite (replaceCallback_blank _ g "0,1" ∅ cache "A1" "0,0");
            [eauto | reflexivity | set_solver | discriminate |].
          rewrite E. destruct val; [reflexivity | discriminate].
        + rewrite (replaceCallback_literal _ g "0,1" ∅ cache "A1" "0,0" val);
            [eauto | reflexivity | set_solver | discriminate | exact E | exact Ev | exact HA].
      - rewrite (replaceCallback_blank _ g "0,1" ∅ cache "A1" "0,0");
          [eauto | reflexivity | set_solver | discriminate | now rewrite E]. }
    destruct Hpre as [sub Hpre].
    apply (circular_token_general newFunction g cache 0 1 [Match "A1"; Verbatim "+"] "A1"
             [] "0,0" fuel (Normal sub) cache); try exact Hmiss; try exact Hpre.
    + unfold getValue. change (getCellKey 0 1) with "0,1". now rewrite Hg.
    + unfold getValue. change (getCellKey 0 1) with "0,1". now rewrite Hg.
    + reflexivity.
    + left. apply (bool_decide_unpack _). vm_compute. exact I.
Qed.

Lemma circular_reference_token_witness :
  displayValue sumHost 2 (<["0,0" := "=1+1"]> (<["0,1" := "=A1+A1"]> ∅)) ∅ 0 1
  = Some ("Circular reference",
          <[getCellKey 0 1 := "Circular reference"]> {[ "0,0" := "2" ]}).
Proof.
  apply (proj1 (circular_reference_token sumHost)
           (<["0,0" := "=1+1"]> (<["0,1" := "=A1+A1"]> ∅)) ∅ 0 1
           [Match "A1"; Verbatim "+"] "A1" [] "0,0" 1%nat (Normal "2+")).
  - reflexivity.
  - reflexivity.
  - reflexivity.
  - reflexivity.
  - left. apply (bool_decide_unpack _). vm_compute. exact I.
  - vm_compute. reflexivity.
Defined.

(** C7. After [setRaw(A1, "5")] and [setRaw(B1, "=A1+1")], the
    evaluation of B1 hands [return 5+1] to the host and displays the
    text of its value, "6" for a host on which 5+1 is 6; more generally
    a non-empty literal in A1 is substituted as it stands when it reads
    as a number, and between quotes otherwise. *)
Theorem numeric_reference_sum (newFunction : string -> Completion)
    (e : engine) (fuel : nat) :
  (newFunction "return 5+1" = Returns (JsText "6") ->
   display newFunction (S fuel) (setValue (setValue e 0 0 "5") 0 1 "=A1+1") 0 1
   = Some ("6", Engine (<["0,1" := "=A1+1"]> (<["0,0" := "5"]> (gridData e)))
                       {[ "0,1" := "6" ]}))
  /\ (forall val,
         isEmpty val = false -> startsWithEq val = false ->
         option_map fst
           (display newFunction (S fuel) (setValue (setValue e 0 0 val) 0 1 "=A1+1") 0 1)
         = Some (settle (newFunction
                    ("return " +:+ (if isNaNNumber val then quote +:+ val +:+ quote else val)
                     +:+ "+1")))).
Proof.
  split.
  - intros Hhost. unfold display, setValue. cbn [gridData calculationCache].
    change (getCellKey 0 0) with "0,0". change (getCellKey 0 1) with "0,1".
    rewrite (literal_plus_one newFunction _ "5" fuel);
      [| rewrite lookup_insert_ne by discriminate; apply lookup_insert_eq
       | apply lookup_insert_eq | reflexivity | reflexivity].
    change (isNaNNumber "5") with false. cbn iota.
    change ("return " +:+ "5" +:+ "+1") with "return 5+1". now rewrite Hhost.
  - intros val He Hf. unfold display, setValue. cbn [gridData calculationCache].
    change (getCellKey 0 0) with "0,0". change (getCellKey 0 1) with "0,1".
    rewrite (literal_plus_one newFunction _ val fuel);
      [reflexivity | rewrite lookup_insert_ne by discriminate; apply lookup_insert_eq
       | apply lookup_insert_eq | exact He | exact Hf].
Qed.

Lemma numeric_reference_sum_witness :
  display sumHost 1 (setValue (setValue (initial) 0 0 "5") 0 1 "=A1+1") 0 1
  = Some ("6", Engine (<["0,1" := "=A1+1"]> (<["0,0" := "5"]> ∅)) {[ "0,1" := "6" ]}).
Proof. apply (proj1 (numeric_reference_sum sumHost initial 0)). reflexivity. Defined.

(** C8, as stated, fails: in [=A1+A1] over an empty grid both tokens
    decode to a coordinate without content, yet the second one is not
    replaced by 0; it ends the evaluation with the circular-reference
    marker. *)
Lemma repeated_blank_reference_throws :
  (<["0,1" := "=A1+A1"]> (∅ : gmap string string)) !! "0,0" = None
  /\ segments "A1+A1" = [Match "A1"; Verbatim "+"; Match "A1"]
  /\ labelToCellKey "A1" = Some "0,0"
  /\ replaceAll (displayValue sumHost 0 (<["0,1" := "=A1+A1"]> ∅))
       (<["0,1" := "=A1+A1"]> ∅) "0,1" (segments "A1+A1") ∅ ∅
     = Some (Throw "Circular reference", ∅)
  /\ option_map fst (displayValue sumHost 1 (<["0,1" := "=A1+A1"]> ∅) ∅ 0 1)
     = Some "Circular reference".
Proof. repeat split; vm_compute; reflexivity. Qed.

(** C8, amended. A reference token that passes the circular-reference
    check (its key is not that of the cell under evaluation and has not
    been referenced earlier in the expression) and whose key has no
    content in the grid, absent or empty, is replaced by the literal 0
    without any nested call, whatever the coordinate it decodes to; the
    replacement then goes on with the rest of the expression. *)
Theorem blank_reference_is_zero (recur : recurT)
    (g : gmap string string) (cellKey : string) (refs : gset string)
    (cache : gmap string string) (label key : string) (rest : list segment) :
  labelToCellKey label = Some key ->
  key ∉ refs -> key <> cellKey ->
  default EmptyString (g !! key) = EmptyString ->
  replaceAll recur g cellKey (Match label :: rest) refs cache
  = match replaceAll recur g cellKey rest (refs ∪ {[ key ]}) cache with
    | Some (Normal out, cache') => Some (Normal ("0" +:+ out), cache')
    | other => other
    end.
Proof. apply blank_token_general. Qed.

Lemma blank_reference_is_zero_witness :
  replaceAll (displayValue sumHost 0 ∅) ∅ "0,0"
    (Match "ZZZZ123456789" :: [Verbatim "+"; Verbatim "1"]) ∅ ∅
  = match replaceAll (displayValue sumHost 0 ∅) ∅ "0,0" [Verbatim "+"; Verbatim "1"]
            (∅ ∪ {[ "123456788,475253" ]}) ∅ with
    | Some (Normal out, cache') => Some (Normal ("0" +:+ out), cache')
    | other => other
    end.
Proof.
  apply (blank_reference_is_zero (displayValue sumHost 0 ∅) ∅ "0,0" ∅ ∅
           "ZZZZ123456789" "123456788,475253" [Verbatim "+"; Verbatim "1"]).
  - reflexivity.
  - apply (bool_decide_unpack _). vm_compute. exact I.
  - discriminate.
  - reflexivity.
Defined.


(** * Further properties of the codec *)

Section CodecMore.

Lemma cellKeyToLabel_negative_col row col :
  col < 0 -> cellKeyToLabel row col = numberToString (row + 1).
Proof.
  intros Hc. unfold cellKeyToLabel, colFuel. cbn [colLoop].
  destruct (Z.geb_spec col 0); [lia | reflexivity].
Qed.

Lemma labelToCellKey_no_letters s :
  match s with String c _ => isUpper c = false | EmptyString => True end ->
  labelToCellKey s = None.
Proof.
  intros Hs. unfold labelToCellKey, matchLabel.
  assert (Hspan : span isUpper s = (EmptyString, s))
    by (destruct s as [|c s]; simpl; [reflexivity | now rewrite Hs]).
  rewrite Hspan. now destruct (span isDigit s).
Qed.

Lemma labelToCellKey_no_digits (letters rest : string) :
  allChars isUpper letters = true ->
  match rest with String c _ => isUpper c = false /\ isDigit c = false | EmptyString => True end ->
  labelToCellKey (letters +:+ rest) = None.
Proof.
  intros Hl Hr. unfold labelToCellKey, matchLabel.
  rewrite (span_app isUpper letters rest Hl) by (destruct rest; [exact I | apply Hr]).
  assert (Hspan : span isDigit rest = (EmptyString, rest))
    by (destruct rest as [|c r]; simpl; [reflexivity | now rewrite (proj2 Hr)]).
  rewrite Hspan. cbn [isEmpty negb]. now rewrite andb_false_r.
Qed.

Lemma roundtrip_general row col :
  -1 <= row -> 0 <= col ->
  labelToCellKey (cellKeyToLabel row col) = Some (getCellKey row col).
Proof.
  intros Hrow Hcol. unfold cellKeyToLabel, labelToCellKey.
  destruct (colLoop_letters col Hcol (colFuel col) EmptyString)
    as (letters & Heq & Hup & Hne & Hval); [unfold colFuel; lia|].
  rewrite Heq, string_app_nil_r.
  destruct (numberToString_nonneg (row + 1)) as (Hd & Hdn & Hparse); [lia|].
  rewrite (matchLabel_app letters _ Hup Hne Hd Hdn).
  rewrite Hparse, Hval. unfold getCellKey.
  now replace (row + 1 - 1) with row by lia; replace (col + 1 - 1) with col by lia.
Qed.

Lemma roundtrip_fails row col :
  col < 0 \/ row < -1 -> labelToCellKey (cellKeyToLabel row col) = None.
Proof.
  intros Hout.
  destruct (numberToString_shape (row + 1)) as (d & Hd & _ & Hs).
  destruct (Z_lt_le_dec col 0) as [Hc|Hc].
  - rewrite cellKeyToLabel_negative_col by exact Hc.
    apply labelToCellKey_no_letters. rewrite Hs.
    destruct (row + 1 <? 0); [reflexivity|].
    pose proof (uint_digits d) as Hall.
    destruct (NilEmpty.string_of_uint d) as [|c s]; [exact I|].
    simpl in Hall. apply andb_prop in Hall as [Hc' _]. now apply isDigit_not_upper.
  - destruct Hout as [?|Hrow]; [lia|]. unfold cellKeyToLabel.
    destruct (colLoop_letters col Hc (colFuel col) EmptyString)
      as (letters & Heq & Hup & _ & _); [unfold colFuel; lia|].
    rewrite Heq, string_app_nil_r, Hs.
    destruct (Z.ltb_spec (row + 1) 0); [|lia].
    apply labelToCellKey_no_digits; [exact Hup | split; reflexivity].
Qed.

Lemma upper_code c :
  isUpper c = true -> 0 <= charCode c - 65 <= 25 /\ fromCharCode (charCode c) = c.
Proof.
  unfold isUpper. intros H. split; [lia|].
  unfold fromCharCode, charCode. now rewrite Nat2Z.id, ascii_nat_embedding.
Qed.

(** The loop of [cellKeyToLabel] rebuilds the letters that the loop of
    [labelToCellKey] has read: [pre] is what has been read so far, with
    value [base]. *)
Lemma colLoop_rebuilds rest :
  allChars isUpper rest = true ->
  forall base pre,
    0 <= base -> (pre = EmptyString <-> base = 0) ->
    (forall fuel acc, 1 <= base -> (Z.to_nat (Z.log2 (base - 1)) < fuel)%nat ->
                      colLoop fuel (base - 1) acc = pre +:+ acc) ->
    forall fuel acc,
      1 <= colOfLetters base rest ->
      (Z.to_nat (Z.log2 (colOfLetters base rest - 1)) < fuel)%nat ->
      colLoop fuel (colOfLetters base rest - 1) acc = (pre +:+ rest) +:+ acc.
Proof.
  induction rest as [|c rest IH]; intros Hup base pre Hbase Hpre Hloop fuel acc Hpos Hfuel.
  - cbn [colOfLetters] in *. rewrite string_app_nil_r. now apply Hloop.
  - cbn [colOfLetters allChars] in *. apply andb_prop in Hup as [Hc Hup].
    destruct (upper_code c Hc) as [Hrange Hchar].
    replace (pre +:+ String c rest) with ((pre +:+ String c EmptyString) +:+ rest)
      by (now rewrite string_app_assoc).
    apply (IH Hup (base * 26 + (charCode c - 65 + 1)) (pre +:+ String c EmptyString));
      try assumption; [lia | |].
    + split; [destruct pre; discriminate | lia].
    + clear fuel acc Hpos Hfuel. intros fuel acc _ Hfuel.
      destruct fuel as [|fuel]; [lia|]. cbn [colLoop].
      replace (base * 26 + (charCode c - 65 + 1) - 1)
        with (base * 26 + (charCode c - 65)) in * by lia.
      destruct (Z.geb_spec (base * 26 + (charCode c - 65)) 0); [|lia].
      rewrite Z.rem_mod_nonneg by lia.
      assert (Hdiv : (base * 26 + (charCode c - 65)) / 26 = base)
        by (symmetry; apply (Z.div_unique _ 26 base (charCode c - 65)); lia).
      assert (Hmod : (base * 26 + (charCode c - 65)) mod 26 = charCode c - 65)
        by (symmetry; apply (Z.mod_unique _ 26 base (charCode c - 65)); lia).
      rewrite Hdiv, Hmod.
      replace (65 + (charCode c - 65)) with (charCode c) by lia. rewrite Hchar.
      rewrite string_app_assoc. cbn [String.append].
      destruct (Z.ltb_spec (base - 1) 0) as [Hz|Hnz].
      * assert (base = 0) by lia. now rewrite (proj2 Hpre).
      * apply Hloop; [lia|].
        assert (26 <= base * 26 + (charCode c - 65)) by lia.
        pose proof (log2_shrinks (base * 26 + (charCode c - 65)) (base - 1)
                      ltac:(lia) ltac:(lia) ltac:(lia)).
        pose proof (Z.log2_nonneg (base - 1)). lia.
Qed.

Lemma colOfLetters_pos letters base :
  allChars isUpper letters = true -> isEmpty letters = false -> 0 <= base ->
  1 <= colOfLetters base letters.
Proof.
  revert base. induction letters as [|c rest IH]; intros base Hup Hne Hbase; [discriminate|].
  cbn [colOfLetters allChars] in *. apply andb_prop in Hup as [Hc Hup].
  destruct (upper_code c Hc) as [Hrange _].
  destruct rest as [|c' rest']; [cbn [colOfLetters]; lia|].
  apply IH; [exact Hup | reflexivity | lia].
Qed.

Lemma cellKeyToLabel_of_letters letters n :
  allChars isUpper letters = true -> isEmpty letters = false ->
  cellKeyToLabel (n - 1) (colOfLetters 0 letters - 1) = letters +:+ numberToString n.
Proof.
  intros Hup Hne. unfold cellKeyToLabel.
  pose proof (colOfLetters_pos letters 0 Hup Hne ltac:(lia)) as Hpos.
  rewrite (colLoop_rebuilds letters Hup 0 EmptyString); try assumption; try lia.
  - cbn [String.append]. rewrite string_app_nil_r. now replace (n - 1 + 1) with n by lia.
  - split; reflexivity.
  - unfold colFuel. lia.
Qed.

Lemma parseInt_leading_zero digits : parseInt (String "0" digits) = parseInt digits.
Proof. reflexivity. Qed.

End CodecMore.

(** X1. [getCellKey] is injective on all pairs of integers, negative
    ones included, and splitting a key at its comma gives the pair back:
    no two coordinates share a key. *)
Theorem getCellKey_injective (r1 c1 r2 c2 : Z) :
  (getCellKey r1 c1 = getCellKey r2 c2 <-> r1 = r2 /\ c1 = c2)
  /\ keyToCoord (getCellKey r1 c1) = (r1, c1).
Proof.
  split; [split|].
  - apply getCellKey_inj.
  - now intros [-> ->].
  - apply keyToCoord_getCellKey.
Qed.



(** X3. Zeros in front of the row number are ignored by
    [labelToCellKey]: a label and the same label with a 0 put before its
    digits decode to the same key, so decoding is not injective. *)
Theorem labelToCellKey_leading_zero (letters digits : string) :
  allChars isUpper letters = true -> isEmpty letters = false ->
  allChars isDigit digits = true -> isEmpty digits = false ->
  labelToCellKey (letters +:+ String "0" digits) = labelToCellKey (letters +:+ digits)
  /\ letters +:+ String "0" digits <> letters +:+ digits.
Proof.
  intros Hl Hln Hd Hdn. split.
  - unfold labelToCellKey.
    rewrite (matchLabel_app letters digits Hl Hln Hd Hdn).
    rewrite (matchLabel_app letters (String "0" digits) Hl Hln); [| now cbn; rewrite Hd | reflexivity].
    now rewrite parseInt_leading_zero.
  - intros Heq. apply (f_equal String.length) in Heq.
    rewrite !string_length_app in Heq. simpl in Heq. lia.
Qed.

Lemma labelToCellKey_leading_zero_witness :
  labelToCellKey "A01" = labelToCellKey "A1" /\ "A01" <> "A1".
Proof. apply (labelToCellKey_leading_zero "A" "1"); reflexivity. Defined.

(** X4. For a coordinate with row and column between -(2^53 - 1) and
    2^53 - 1, the label that the host prints is the one computed on the
    integers, and decoding it succeeds exactly for column >= 0 and
    row >= -1, and then gives the key of that coordinate; for a negative
    column the label has no letters, for a row below -1 its number
    carries a minus sign, and [labelToCellKey] rejects both. *)
Theorem decode_encode_domain (row col : Z) :
  - MAX_SAFE_INTEGER <= row <= MAX_SAFE_INTEGER ->
  - MAX_SAFE_INTEGER <= col <= MAX_SAFE_INTEGER ->
  cellKeyToLabelHost row col = Some (cellKeyToLabel row col)
  /\ labelToCellKey (cellKeyToLabel row col)
     = if (0 <=? col) && (-1 <=? row) then Some (getCellKey row col) else None.
Proof.
  intros Hrow _. split; [now apply cellKeyToLabelHost_exact|].
  destruct (Z.leb_spec 0 col); destruct (Z.leb_spec (-1) row); cbn [andb].
  - now apply roundtrip_general.
  - apply roundtrip_fails. lia.
  - apply roundtrip_fails. lia.
  - apply roundtrip_fails. lia.
Qed.

Lemma decode_encode_domain_witness :
  cellKeyToLabelHost (-2) 5 = Some (cellKeyToLabel (-2) 5)
  /\ labelToCellKey (cellKeyToLabel (-2) 5)
     = if (0 <=? 5) && (-1 <=? -2) then Some (getCellKey (-2) 5) else None.
Proof. apply (decode_encode_domain (-2) 5); unfold MAX_SAFE_INTEGER; lia. Defined.

(** X5. The labels that the host prints are injective on the coordinates
    with column between 0 and 2^53 - 1 and row between -1 and 2^53 - 1:
    two such cells have the same label only if they are the same
    cell. *)
Theorem cellKeyToLabel_injective (r1 c1 r2 c2 : Z) :
  -1 <= r1 <= MAX_SAFE_INTEGER -> 0 <= c1 <= MAX_SAFE_INTEGER ->
  -1 <= r2 <= MAX_SAFE_INTEGER -> 0 <= c2 <= MAX_SAFE_INTEGER ->
  (cellKeyToLabelHost r1 c1 = cellKeyToLabelHost r2 c2 <-> r1 = r2 /\ c1 = c2).
Proof.
  intros Hr1 [Hc1 _] Hr2 [Hc2 _]. split; [|now intros [-> ->]].
  rewrite !cellKeyToLabelHost_exact by (unfold MAX_SAFE_INTEGER in *; lia).
  intros Heq. injection Heq as Heq.
  pose proof (roundtrip_general r1 c1 (proj1 Hr1) Hc1) as H1.
  rewrite Heq, (roundtrip_general r2 c2 (proj1 Hr2) Hc2) in H1.
  apply getCellKey_inj. congruence.
Qed.

Lemma cellKeyToLabel_injective_witness :
  cellKeyToLabelHost 3 27 = cellKeyToLabelHost 3 701 <-> 3 = 3 /\ 27 = 701.
Proof. apply (cellKeyToLabel_injective 3 27 3 701); unfold MAX_SAFE_INTEGER; lia. Defined.

(** X6. On a label in canonical form (capitals followed by a number
    printed without padding) whose row number and column number are at
    most 2^53, encoding after decoding gives the label back: for the row
    and column that [labelToCellKey] computes from the label, the host
    prints the same label. *)
Theorem encode_decode_roundtrip (letters : string) (n : Z) :
  allChars isUpper letters = true -> isEmpty letters = false ->
  0 <= n <= MAX_SAFE_INTEGER + 1 ->
  colOfLetters 0 letters <= MAX_SAFE_INTEGER + 1 ->
  labelToCellKey (letters +:+ numberToString n)
  = Some (getCellKey (n - 1) (colOfLetters 0 letters - 1))
  /\ cellKeyToLabelHost (n - 1) (colOfLetters 0 letters - 1)
     = Some (letters +:+ numberToString n).
Proof.
  intros Hup Hne Hn _. split.
  - destruct (numberToString_nonneg n (proj1 Hn)) as (Hd & Hdn & Hparse).
    unfold labelToCellKey. rewrite (matchLabel_app letters _ Hup Hne Hd Hdn).
    now rewrite Hparse.
  - rewrite cellKeyToLabelHost_exact by (unfold MAX_SAFE_INTEGER in *; lia).
    f_equal. now apply cellKeyToLabel_of_letters.
Qed.

Lemma encode_decode_roundtrip_witness :
  labelToCellKey ("XFD" +:+ numberToString 1048576)
  = Some (getCellKey (1048576 - 1) (colOfLetters 0 "XFD" - 1))
  /\ cellKeyToLabelHost (1048576 - 1) (colOfLetters 0 "XFD" - 1)
     = Some ("XFD" +:+ numberToString 1048576).
Proof.
  apply (encode_decode_roundtrip "XFD" 1048576);
    [reflexivity | reflexivity | unfold MAX_SAFE_INTEGER; lia | vm_compute; discriminate].
Defined.

Lemma in_range_list (n : nat) (z : Z) :
  0 <= z < Z.of_nat n -> In z (map Z.of_nat (seq 0 n)).
Proof.
  intros Hz. apply in_map_iff. exists (Z.to_nat z). split; [lia|].
  apply in_seq. lia.
Qed.

Lemma grid_letters_fit :
  forallb (fun col => (1 <=? String.length (colLoop (colFuel col) col EmptyString))%nat
                      && (String.length (colLoop (colFuel col) col EmptyString) <=? 3)%nat)
          (map Z.of_nat (seq 0 (Z.to_nat 10000))) = true.
Proof. vm_compute. reflexivity. Qed.

Lemma grid_digits_fit :
  forallb (fun row => (1 <=? String.length (numberToString (row + 1)))%nat
                      && (String.length (numberToString (row + 1)) <=? 5)%nat)
          (map Z.of_nat (seq 0 (Z.to_nat 10000))) = true.
Proof. vm_compute. reflexivity. Qed.

(** X7. Inside the 10,000 x 10,000 grid every label is short: one to
    three column letters and one to five digits, so between 2 and 8
    characters. *)
Theorem grid_label_length (row col : Z) :
  0 <= row < TOTAL_ROWS -> 0 <= col < TOTAL_COLUMNS ->
  (2 <= String.length (cellKeyToLabel row col) <= 8)%nat.
Proof.
  unfold TOTAL_ROWS, TOTAL_COLUMNS. intros Hrow Hcol.
  pose proof grid_letters_fit as Hl. rewrite forallb_forall in Hl.
  specialize (Hl col (in_range_list (Z.to_nat 10000) col ltac:(lia))).
  pose proof grid_digits_fit as Hd. rewrite forallb_forall in Hd.
  specialize (Hd row (in_range_list (Z.to_nat 10000) row ltac:(lia))).
  cbv beta in Hl, Hd.
  apply andb_prop in Hl as [Hl1 Hl2]. apply andb_prop in Hd as [Hd1 Hd2].
  apply Nat.leb_le in Hl1, Hl2, Hd1, Hd2.
  unfold cellKeyToLabel. rewrite string_length_app. lia.
Qed.

Lemma grid_label_length_witness :
  (2 <= String.length (cellKeyToLabel 9999 9999) <= 8)%nat.
Proof. apply (grid_label_length 9999 9999); unfold TOTAL_ROWS, TOTAL_COLUMNS; lia. Defined.

(** * Further properties of the cell store *)

(** X8. After [setValue] on a cell, [getValue] of that cell returns the
    text written, whatever it is, and [getValue] of every other cell
    returns what it returned before. *)
Theorem getValue_setValue (e : engine) (row col row' col' : Z) (value : string) :
  getValue (gridData (setValue e row col value)) row col = value
  /\ (row' <> row \/ col' <> col ->
      getValue (gridData (setValue e row col value)) row' col'
      = getValue (gridData e) row' col').
Proof.
  unfold getValue, setValue. cbn [gridData]. split.
  - now rewrite lookup_insert_eq.
  - intros Hne. rewrite lookup_insert_ne; [reflexivity|].
    intros Heq. apply getCellKey_inj in Heq. lia.
Qed.

Lemma getValue_setValue_witness :
  getValue (gridData (setValue initial 2 3 "x")) 2 3 = "x"
  /\ getValue (gridData (setValue initial 2 3 "x")) 23 0
     = getValue (gridData initial) 23 0.
Proof.
  destruct (getValue_setValue initial 2 3 23 0 "x") as [H1 H2].
  split; [exact H1 | apply H2; left; lia].
Defined.

(** X9. Edits compose as writes to independent cells: two [setValue]
    calls on different cells give the same state in either order, and
    of two calls on the same cell only the last one counts. *)
Theorem setValue_compose (e : engine) (r1 c1 r2 c2 : Z) (v1 v2 : string) :
  (r1 <> r2 \/ c1 <> c2 ->
   setValue (setValue e r1 c1 v1) r2 c2 v2 = setValue (setValue e r2 c2 v2) r1 c1 v1)
  /\ setValue (setValue e r1 c1 v1) r1 c1 v2 = setValue e r1 c1 v2.
Proof.
  unfold setValue. cbn [gridData]. split.
  - intros Hne. f_equal. apply insert_insert_ne.
    intros Heq. apply getCellKey_inj in Heq. lia.
  - f_equal. apply insert_insert_eq.
Qed.

Lemma setValue_compose_witness :
  setValue (setValue initial 0 0 "1") 0 1 "=A1"
  = setValue (setValue initial 0 1 "=A1") 0 0 "1".
Proof. apply (proj1 (setValue_compose initial 0 0 0 1 "1" "=A1")). right. lia. Defined.

(** * Further properties of the evaluator *)

Section EvaluatorMore.

Variable newFunction : string -> Completion.

(** *** What a call leaves in the cache *)

Lemma displayValue_caches fuel g cache row col text cache' :
  displayValue newFunction fuel g cache row col = Some (text, cache') ->
  default EmptyString (cache' !! getCellKey row col) = text.
Proof.
  destruct fuel as [|fuel]; [discriminate|].
  rewrite displayValue_S. unfold displayBody.
  destruct (isEmpty (default EmptyString (cache !! getCellKey row col))) eqn:Hhit;
    cbn [negb]; [|intros ?; simplify_eq; reflexivity].
  destruct (startsWithEq (getValue g row col)); cbn [negb];
    [|intros ?; simplify_eq; now rewrite lookup_insert_eq].
  destruct (replaceAll _ _ _ _ _ _) as [[[out|m] c1]|]; [| |discriminate];
    intros ?; simplify_eq; now rewrite lookup_insert_eq.
Qed.

Lemma cacheGrows_refl c : cacheGrows c c.
Proof. intros key. split; auto. Qed.

Lemma cacheGrows_trans c1 c2 c3 : cacheGrows c1 c2 -> cacheGrows c2 c3 -> cacheGrows c1 c3.
Proof.
  intros H12 H23 key. destruct (H12 key) as [Ha Hb]. destruct (H23 key) as [Hc Hd].
  split; auto.
Qed.

Lemma cacheGrows_insert_miss c key text :
  cacheMiss c key -> cacheGrows c (<[key := text]> c).
Proof.
  intros Hmiss k. destruct (decide (key = k)) as [<-|Hne].
  - split; [intros _; rewrite lookup_insert_eq; eauto|].
    intros t Ht Hne. unfold cacheMiss in Hmiss. rewrite Ht in Hmiss. cbn in Hmiss.
    subst t. discriminate.
  - rewrite lookup_insert_ne by exact Hne. split; auto.
Qed.

Lemma cacheMiss_grows c c' key :
  cacheMiss c key -> cacheGrows c c' ->
  forall text, cacheGrows c (<[key := text]> c').
Proof.
  intros Hmiss Hg text k. destruct (decide (key = k)) as [<-|Hne].
  - split; [intros _; rewrite lookup_insert_eq; eauto|].
    intros t Ht Hne. unfold cacheMiss in Hmiss. rewrite Ht in Hmiss. cbn in Hmiss.
    subst t. discriminate.
  - rewrite lookup_insert_ne by exact Hne. apply Hg.
Qed.

Lemma replaceCallback_grows (recur : recurT) g cellKey refs cache label o refs' cache' :
  recurGrows recur ->
  replaceCallback recur g cellKey refs cache label = Some (o, refs', cache') ->
  cacheGrows cache cache'.
Proof.
  intros Hrec. unfold replaceCallback.
  destruct (labelToCellKey label) as [key|];
    [|intros ?; simplify_eq; apply cacheGrows_refl].
  destruct (isEmpty key); [intros ?; simplify_eq; apply cacheGrows_refl|].
  destruct (bool_decide (key ∈ refs) || String.eqb key cellKey);
    [intros ?; simplify_eq; apply cacheGrows_refl|].
  destruct (g !! key) as [val|]; [|intros ?; simplify_eq; apply cacheGrows_refl].
  destruct (isEmpty val); [intros ?; simplify_eq; apply cacheGrows_refl|].
  destruct (startsWithEq val).
  - destruct (keyToCoord key) as [refRow refCol].
    destruct (recur cache refRow refCol) as [[text c1]|] eqn:E; [|discriminate].
    intros ?; simplify_eq. eapply Hrec; eauto.
  - destruct (isNaNNumber val); intros ?; simplify_eq; apply cacheGrows_refl.
Qed.

Lemma replaceAll_grows (recur : recurT) g cellKey segs refs cache o cache' :
  recurGrows recur ->
  replaceAll recur g cellKey segs refs cache = Some (o, cache') ->
  cacheGrows cache cache'.
Proof.
  intros Hrec. revert refs cache o cache'.
  induction segs as [|[c|label] rest IH]; intros refs cache o cache'; cbn [replaceAll].
  - intros ?; simplify_eq. apply cacheGrows_refl.
  - destruct (replaceAll recur g cellKey rest refs cache) as [[o1 c1]|] eqn:E; [|discriminate].
    intros Hres. assert (cache' = c1) as -> by (destruct o1; simplify_eq; reflexivity).
    eauto.
  - destruct (replaceCallback recur g cellKey refs cache label) as [[[o1 refs1] c1]|] eqn:E;
      [|discriminate].
    pose proof (replaceCallback_grows _ _ _ _ _ _ _ _ _ Hrec E) as H1.
    destruct o1 as [sub|m]; [|intros ?; simplify_eq; exact H1].
    destruct (replaceAll recur g cellKey rest refs1 c1) as [[o2 c2]|] eqn:E2; [|discriminate].
    intros Hres. assert (cache' = c2) as -> by (destruct o2; simplify_eq; reflexivity).
    eapply cacheGrows_trans; eauto.
Qed.

Lemma displayValue_grows fuel g : recurGrows (displayValue newFunction fuel g).
Proof.
  induction fuel as [|fuel IH]; intros cache row col text cache'; [discriminate|].
  rewrite displayValue_S. unfold displayBody.
  destruct (isEmpty (default EmptyString (cache !! getCellKey row col))) eqn:Hhit;
    cbn [negb]; [|intros ?; simplify_eq; apply cacheGrows_refl].
  assert (Hmiss : cacheMiss cache (getCellKey row col))
    by (unfold cacheMiss; destruct (default EmptyString _); [reflexivity | discriminate]).
  destruct (startsWithEq (getValue g row col)); cbn [negb];
    [|intros ?; simplify_eq; now apply cacheGrows_insert_miss].
  destruct (replaceAll _ _ _ _ _ _) as [[o c1]|] eqn:E; [|discriminate].
  pose proof (replaceAll_grows _ _ _ _ _ _ _ _ IH E) as Hg.
  intros Hres. destruct o; simplify_eq; now apply cacheMiss_grows.
Qed.

(** *** Grids that read alike evaluate alike *)

Lemma replaceCallback_agree (r1 r2 : recurT) (D : string -> Prop) g1 g2
    cellKey refs cache label :
  sameContent D g1 g2 ->
  (forall c row col, D (getCellKey row col) -> r1 c row col = r2 c row col) ->
  (forall key, labelToCellKey label = Some key -> D key) ->
  replaceCallback r1 g1 cellKey refs cache label
  = replaceCallback r2 g2 cellKey refs cache label.
Proof.
  intros Hsame Hrec HD. unfold replaceCallback.
  destruct (labelToCellKey label) as [key|] eqn:Hk; [|reflexivity].
  destruct (isEmpty key); [reflexivity|].
  destruct (bool_decide (key ∈ refs) || String.eqb key cellKey); [reflexivity|].
  pose proof (Hsame key (HD key eq_refl)) as Heq.
  destruct (labelToCellKey_key _ _ Hk) as (r & c & ->).
  destruct (g1 !! getCellKey r c) as [v1|], (g2 !! getCellKey r c) as [v2|];
    cbn in Heq; subst; try reflexivity.
  destruct (isEmpty v2); [reflexivity|].
  destruct (startsWithEq v2); [|reflexivity].
  rewrite keyToCoord_getCellKey. now rewrite (Hrec cache r c (HD _ eq_refl)).
Qed.

Lemma replaceAll_agree (r1 r2 : recurT) (D : string -> Prop) g1 g2 cellKey segs :
  sameContent D g1 g2 ->
  (forall c row col, D (getCellKey row col) -> r1 c row col = r2 c row col) ->
  (forall label key, In (Match label) segs -> labelToCellKey label = Some key -> D key) ->
  forall refs cache,
    replaceAll r1 g1 cellKey segs refs cache = replaceAll r2 g2 cellKey segs refs cache.
Proof.
  intros Hsame Hrec. induction segs as [|[c|label] rest IH]; intros HD refs cache;
    cbn [replaceAll]; [reflexivity|..].
  - now rewrite IH by (intros l k Hin; apply HD; now right).
  - rewrite (replaceCallback_agree r1 r2 D g1 g2 cellKey refs cache label Hsame Hrec)
      by (intros key; apply HD; now left).
    destruct (replaceCallback r2 g2 cellKey refs cache label) as [[[[sub|m] refs1] c1]|];
      [|reflexivity..].
    now rewrite IH by (intros l k Hin; apply HD; now right).
Qed.

Lemma displayValue_agree (D : string -> Prop) g1 g2 :
  closedRefs D g1 -> sameContent D g1 g2 ->
  forall fuel cache row col,
    D (getCellKey row col) ->
    displayValue newFunction fuel g1 cache row col
    = displayValue newFunction fuel g2 cache row col.
Proof.
  intros Hclosed Hsame. induction fuel as [|fuel IH]; intros cache row col HD; [reflexivity|].
  rewrite !displayValue_S. unfold displayBody, getValue.
  rewrite <- (Hsame _ HD).
  destruct (negb (isEmpty (default EmptyString (cache !! getCellKey row col))));
    [reflexivity|].
  destruct (startsWithEq (default EmptyString (g1 !! getCellKey row col))) eqn:Hf;
    cbn [negb]; [|reflexivity].
  rewrite (replaceAll_agree (displayValue newFunction fuel g1)
             (displayValue newFunction fuel g2) D g1 g2); [reflexivity | exact Hsame | |].
  - intros c r cc Hd. now apply IH.
  - intros label key Hin Hk. exact (Hclosed _ _ _ HD Hf Hin Hk).
Qed.

(** *** Texts without capitals hold no token *)

Lemma scan_no_capital fuel s :
  allChars (fun c => negb (isUpper c)) s = true ->
  forall label, ~ In (Match label) (scan fuel s).
Proof.
  revert s. induction fuel as [|fuel IH]; intros s Hs label; [intros []|].
  destruct s as [|c s]; [intros []|]. cbn [allChars] in Hs.
  apply andb_prop in Hs as [Hc Hs]. apply negb_true_iff in Hc.
  cbn [scan]. unfold matchAt. cbn [span]. rewrite Hc.
  destruct (span isDigit (String c s)) as [d t]. cbn [isEmpty negb andb].
  intros [Heq|Hin]; [discriminate | exact (IH s Hs label Hin)].
Qed.

(** *** Printed integers read as numbers *)

Lemma trimEnd_id s :
  allChars (fun c => negb (isWhiteSpace c)) s = true -> trimEnd s = s.
Proof.
  induction s as [|c s IH]; [reflexivity|]. cbn [allChars trimEnd]. intros H.
  apply andb_prop in H as [Hc Hs]. apply negb_true_iff in Hc.
  now rewrite (IH Hs), Hc, andb_false_r.
Qed.

Lemma uint_no_space d :
  allChars (fun c => negb (isWhiteSpace c)) (NilEmpty.string_of_uint d) = true.
Proof. induction d; simpl; auto. Qed.

Lemma isUnsignedDecimal_digits s :
  allChars isDigit s = true -> isEmpty s = false -> isUnsignedDecimal s = true.
Proof.
  intros Hd Hne. unfold isUnsignedDecimal.
  destruct (String.eqb s "Infinity") eqn:E; [reflexivity|].
  rewrite (span_all isDigit s Hd). now rewrite Hne.
Qed.

Lemma isNaNNumber_integer n : isNaNNumber (numberToString n) = false.
Proof.
  destruct (numberToString_shape n) as (d & Hd & _ & Hs). rewrite Hs.
  pose proof (uint_digits d) as Hdig. pose proof (uint_nonempty d Hd) as Hne.
  pose proof (uint_no_space d) as Hsp.
  unfold isNaNNumber.
  destruct (n <? 0).
  - cbn [trimStart]. change (isWhiteSpace "-") with false. cbn iota.
    rewrite trimEnd_id by (cbn [allChars]; now rewrite Hsp).
    cbn [isEmpty dropSign]. change (isSign "-") with true. cbn iota.
    rewrite (isUnsignedDecimal_digits _ Hdig Hne). now rewrite orb_true_r.
  - destruct (NilEmpty.string_of_uint d) as [|c s] eqn:E; [discriminate|].
    cbn [allChars] in Hdig, Hsp. apply andb_prop in Hdig as [Hc Hdig'].
    apply andb_prop in Hsp as [Hw Hsp']. apply negb_true_iff in Hw.
    cbn [trimStart]. rewrite Hw.
    rewrite trimEnd_id by (cbn [allChars]; now rewrite Hw, Hsp').
    cbn [isEmpty dropSign].
    assert (Hsign : isSign c = false) by (unfold isSign, isDigit in *; lia).
    rewrite Hsign.
    rewrite (isUnsignedDecimal_digits (String c s));
      [now rewrite orb_true_r | cbn [allChars]; now rewrite Hc, Hdig' | reflexivity].
Qed.

Lemma numberToString_plain n :
  isEmpty (numberToString n) = false /\ startsWithEq (numberToString n) = false.
Proof.
  destruct (numberToString_shape n) as (d & Hd & _ & Hs). rewrite Hs.
  destruct (n <? 0); [split; reflexivity|].
  pose proof (uint_digits d) as Hdig. pose proof (uint_nonempty d Hd) as Hne.
  destruct (NilEmpty.string_of_uint d) as [|c s]; [discriminate|].
  split; [reflexivity|]. cbn [allChars] in Hdig. apply andb_prop in Hdig as [Hc _].
  unfold startsWithEq. unfold isDigit in Hc. lia.
Qed.

(** *** Literal cells in a reachable state *)


End EvaluatorMore.

(** X10. The scanner of [replace] loses nothing: the segments of an
    expression, matches and copied characters in order, spell the
    expression back, and every match is a non-empty run of capitals
    followed by a non-empty run of digits. *)
Theorem segments_cover (expr : string) :
  segmentsText (segments expr) = expr
  /\ (forall label, In (Match label) (segments expr) ->
        exists letters digits,
          label = letters +:+ digits
          /\ allChars isUpper letters = true /\ isEmpty letters = false
          /\ allChars isDigit digits = true /\ isEmpty digits = false).
Proof.
  split; [apply segments_text|].
  intros label Hin. apply scan_match in Hin as (t & tail & Hm).
  apply matchAt_shape in Hm as (letters & digits & ? & _ & ? & ? & ? & ?).
  exists letters, digits. auto.
Qed.

Lemma segments_cover_witness :
  exists letters digits,
    "B2" = letters +:+ digits
    /\ allChars isUpper letters = true /\ isEmpty letters = false
    /\ allChars isDigit digits = true /\ isEmpty digits = false.
Proof. apply (proj2 (segments_cover "A1+B2") "B2"). vm_compute. auto. Defined.

(** X11. Cell names in lower case are not references: a formula whose
    expression holds no capital letter has no token, and its text goes
    to the host as it stands, whatever the rest of the grid holds. *)
Theorem formula_without_capitals (newFunction : string -> Completion)
    (g cache : gmap string string) (row col : Z) (expr : string) (fuel : nat) :
  allChars (fun c => negb (isUpper c)) expr = true ->
  cacheMiss cache (getCellKey row col) ->
  g !! getCellKey row col = Some (String "=" expr) ->
  displayValue newFunction (S fuel) g cache row col
  = Some (settle (newFunction ("return " +:+ expr)),
          <[getCellKey row col := settle (newFunction ("return " +:+ expr))]> cache).
Proof.
  intros Hlow Hmiss Hg. apply formula_without_refs; try assumption.
  intros label. now apply scan_no_capital.
Qed.

Lemma formula_without_capitals_witness :
  displayValue sumHost 1 (<["0,0" := "7"]> (<["0,1" := "=a1+1"]> ∅)) ∅ 0 1
  = Some (settle (sumHost ("return " +:+ "a1+1")),
          <[getCellKey 0 1 := settle (sumHost ("return " +:+ "a1+1"))]> ∅).
Proof.
  apply (formula_without_capitals sumHost (<["0,0" := "7"]> (<["0,1" := "=a1+1"]> ∅))
           ∅ 0 1 "a1+1" 0); reflexivity.
Defined.

(** X12. A referenced cell that holds a printed integer, negative ones
    included, is substituted as it stands, without quotes and without a
    nested call. *)
Theorem integer_reference_unquoted (recur : recurT) (g : gmap string string)
    (cellKey : string) (refs : gset string) (cache : gmap string string)
    (label key : string) (n : Z) :
  labelToCellKey label = Some key ->
  key ∉ refs -> key <> cellKey ->
  g !! key = Some (numberToString n) ->
  replaceCallback recur g cellKey refs cache label
  = Some (Normal (numberToString n), refs ∪ {[ key ]}, cache).
Proof.
  intros Hk Hn Hne Hg. destruct (numberToString_plain n) as [He Hf].
  rewrite (replaceCallback_literal recur g cellKey refs cache label key _ Hk Hn Hne Hg He Hf).
  now rewrite isNaNNumber_integer.
Qed.

Lemma integer_reference_unquoted_witness :
  replaceCallback (displayValue sumHost 0 (<["0,0" := "-42"]> ∅)) (<["0,0" := "-42"]> ∅)
    "0,1" ∅ ∅ "A1"
  = Some (Normal (numberToString (-42)), ∅ ∪ {[ "0,0" ]}, ∅).
Proof.
  apply (integer_reference_unquoted (displayValue sumHost 0 (<["0,0" := "-42"]> ∅))
           (<["0,0" := "-42"]> ∅) "0,1" ∅ ∅ "A1" "0,0" (-42)).
  - reflexivity.
  - apply (bool_decide_unpack _). vm_compute. exact I.
  - discriminate.
  - reflexivity.
Defined.

(** X13. Memoization: once [displayValue] has returned a non-empty text
    for a cell, asking again for that cell with the cache it handed back
    returns the same text at once (one call deep) and leaves the cache
    as it is. *)
Theorem display_memoized (newFunction : string -> Completion) (fuel fuel' : nat)
    (g cache cache' : gmap string string) (row col : Z) (text : string) :
  displayValue newFunction fuel g cache row col = Some (text, cache') ->
  isEmpty text = false ->
  displayValue newFunction (S fuel') g cache' row col = Some (text, cache').
Proof.
  intros Hret Hne. apply displayValue_caches in Hret.
  rewrite displayValue_S. unfold displayBody. now rewrite Hret, Hne.
Qed.

Lemma display_memoized_witness :
  displayValue sumHost 1 (<["0,0" := "=1+1"]> (<["0,1" := "=A1+1"]> ∅))
    (<["0,1" := "3"]> {[ "0,0" := "2" ]}) 0 1
  = Some ("3", <["0,1" := "3"]> {[ "0,0" := "2" ]}).
Proof.
  apply (display_memoized sumHost 2 0 (<["0,0" := "=1+1"]> (<["0,1" := "=A1+1"]> ∅)) ∅
           (<["0,1" := "3"]> {[ "0,0" := "2" ]}) 0 1 "3").
  - vm_compute. reflexivity.
  - reflexivity.
Defined.

(** X14. A call of [displayValue] only adds to the cache: every entry
    present before is present after, the non-empty ones with the same
    text, and the entry of the cell asked for reads as the text
    returned. *)
Theorem display_keeps_cache (newFunction : string -> Completion) (fuel : nat)
    (g cache cache' : gmap string string) (row col : Z) (text : string) :
  displayValue newFunction fuel g cache row col = Some (text, cache') ->
  cacheGrows cache cache'
  /\ default EmptyString (cache' !! getCellKey row col) = text.
Proof.
  intros Hret. split.
  - exact (displayValue_grows newFunction fuel g _ _ _ _ _ Hret).
  - exact (displayValue_caches newFunction _ _ _ _ _ _ _ Hret).
Qed.

Lemma display_keeps_cache_witness :
  cacheGrows ({[ "5,5" := "kept" ]} : gmap string string)
    (<["0,1" := "3"]> (<["0,0" := "2"]> ({[ "5,5" := "kept" ]} : gmap string string)))
  /\ default EmptyString
       ((<["0,1" := "3"]> (<["0,0" := "2"]> ({[ "5,5" := "kept" ]} : gmap string string)))
          !! getCellKey 0 1) = "3".
Proof.
  apply (display_keeps_cache sumHost 2 (<["0,0" := "=1+1"]> (<["0,1" := "=A1+1"]> ∅))
           {[ "5,5" := "kept" ]}).
  vm_compute. reflexivity.
Defined.

(** X15. The display text of a cell depends only on the cells its
    formula reaches: if a set of keys holds the cell and, with every
    formula cell in it, the keys of that formula's tokens, then writing
    to a cell outside the set changes neither the text nor the cache
    that [displayValue] returns for the cell. *)
Theorem edit_outside_dependencies (newFunction : string -> Completion)
    (D : string -> Prop) (g cache : gmap string string)
    (row col row0 col0 : Z) (value : string) (fuel : nat) :
  closedRefs D g ->
  D (getCellKey row col) ->
  ~ D (getCellKey row0 col0) ->
  displayValue newFunction fuel (<[getCellKey row0 col0 := value]> g) cache row col
  = displayValue newFunction fuel g cache row col.
Proof.
  intros Hclosed HD Hout. symmetry.
  apply (displayValue_agree newFunction D); try assumption.
  intros key Hkey. rewrite lookup_insert_ne; [reflexivity|]. now intros <-.
Qed.

Lemma edit_outside_dependencies_witness :
  displayValue sumHost 1
    (<[getCellKey 0 2 := "9"]> (<["0,0" := "5"]> (<["0,1" := "=A1+1"]> ∅))) ∅ 0 1
  = displayValue sumHost 1 (<["0,0" := "5"]> (<["0,1" := "=A1+1"]> ∅)) ∅ 0 1.
Proof.
  apply (edit_outside_dependencies sumHost (fun key => key = "0,0" \/ key = "0,1")).
  - intros key label key' [-> | ->] Hf Hin Hk.
    + vm_compute in Hf. discriminate.
    + vm_compute in Hin. destruct Hin as [Heq|[Heq|[Heq|[]]]]; try discriminate.
      injection Heq as <-. vm_compute in Hk. injection Hk as <-. now left.
  - now right.
  - intros [H|H]; vm_compute in H; discriminate.
Defined.

(** X16. A cell emptied by writing the empty text behaves, in every
    evaluation, like a cell that was never written: [displayValue]
    returns the same text and the same cache on the grid where the key
    holds the empty text and on the grid without the key. *)
Theorem emptied_cell_reads_as_absent (newFunction : string -> Completion)
    (g cache : gmap string string) (key : string) (row col : Z) (fuel : nat) :
  displayValue newFunction fuel (<[key := EmptyString]> g) cache row col
  = displayValue newFunction fuel (delete key g) cache row col.
Proof.
  apply (displayValue_agree newFunction (fun _ => True)); [| | exact I].
  - intros k label k' _ _ _ _. exact I.
  - intros k _. destruct (decide (key = k)) as [<-|Hne].
    + now rewrite lookup_insert_eq, lookup_delete_eq.
    + now rewrite lookup_insert_ne, lookup_delete_ne.
Qed.



(** X18. In the first version of the component every cell starts with
    the text "Cell r, c"; two cells start with the same text only if
    they are the same cell. *)
Theorem initialCellText_injective (r1 c1 r2 c2 : Z) :
  initialCellText r1 c1 = initialCellText r2 c2 <-> r1 = r2 /\ c1 = c2.
Proof.
  split; [|now intros [-> ->]].
  unfold initialCellText. cbn [String.append]. intros Heq.
  injection Heq as Heq.
  assert (Heq' : numberToString r1 +:+ (", " +:+ numberToString c1)
                 = numberToString r2 +:+ (", " +:+ numberToString c2)) by exact Heq.
  clear Heq. rename Heq' into Heq.
  pose proof (span_app (fun c => negb (isComma c)) (numberToString r1)
                (", " +:+ numberToString c1) (numberToString_no_comma r1) eq_refl) as H1.
  pose proof (span_app (fun c => negb (isComma c)) (numberToString r2)
                (", " +:+ numberToString c2) (numberToString_no_comma r2) eq_refl) as H2.
  rewrite Heq, H2 in H1. injection H1 as Hr Hc.
  apply (f_equal numberOfString) in Hr, Hc.
  rewrite !numberOfString_numberToString in Hr, Hc. auto.
Qed.

Section EvaluatorCells.

Variable newFunction : string -> Completion.

Lemma scan_empty fuel : scan fuel EmptyString = [].
Proof. now destruct fuel. Qed.

(** A label alone is one match. *)
Lemma segments_label (letters digits : string) :
  allChars isUpper letters = true -> isEmpty letters = false ->
  allChars isDigit digits = true -> isEmpty digits = false ->
  segments (letters +:+ digits) = [Match (letters +:+ digits)].
Proof.
  intros Hl Hln Hd Hdn. unfold segments.
  destruct letters as [|c letters]; [discriminate|].
  cbn [String.append String.length scan].
  change (String c (letters +:+ digits)) with (String c letters +:+ digits).
  unfold matchAt. rewrite (span_app isUpper (String c letters) digits Hl).
  - rewrite (span_all isDigit digits Hd), Hdn. cbn [isEmpty negb andb].
    now rewrite scan_empty.
  - destruct digits as [|d digits]; [exact I|]. cbn [allChars] in Hd.
    apply andb_prop in Hd as [Hd' _]. now apply isDigit_not_upper.
Qed.

Lemma cellKeyToLabel_shape row col :
  0 <= row -> 0 <= col ->
  exists letters digits,
    cellKeyToLabel row col = letters +:+ digits
    /\ allChars isUpper letters = true /\ isEmpty letters = false
    /\ allChars isDigit digits = true /\ isEmpty digits = false.
Proof.
  intros Hrow Hcol. unfold cellKeyToLabel.
  destruct (colLoop_letters col Hcol (colFuel col) EmptyString)
    as (letters & Heq & Hup & Hne & _); [unfold colFuel; lia|].
  destruct (numberToString_nonneg (row + 1)) as (Hd & Hdn & _); [lia|].
  exists letters, (numberToString (row + 1)). rewrite Heq, string_app_nil_r. auto.
Qed.

Lemma segments_cellKeyToLabel row col :
  0 <= row -> 0 <= col ->
  segments (cellKeyToLabel row col) = [Match (cellKeyToLabel row col)].
Proof.
  intros Hrow Hcol.
  destruct (cellKeyToLabel_shape row col Hrow Hcol) as (l & d & -> & ? & ? & ? & ?).
  now apply segments_label.
Qed.

Lemma self_reference_general g cache row col fuel :
  0 <= row -> 0 <= col ->
  cacheMiss cache (getCellKey row col) ->
  g !! getCellKey row col = Some (String "=" (cellKeyToLabel row col)) ->
  displayValue newFunction (S fuel) g cache row col
  = Some (circularMessage, <[getCellKey row col := circularMessage]> cache).
Proof.
  intros Hrow Hcol Hmiss Hg.
  assert (Hraw : getValue g row col = String "=" (cellKeyToLabel row col))
    by (unfold getValue; now rewrite Hg).
  apply (circular_token_general newFunction g cache row col [] (cellKeyToLabel row col) []
           (getCellKey row col) fuel (Normal EmptyString) cache); try assumption.
  - now rewrite Hraw.
  - rewrite Hraw. cbn [slice1 app]. now apply segments_cellKeyToLabel.
  - apply roundtrip_general; lia.
  - now right.
  - reflexivity.
Qed.

End EvaluatorCells.

(** X19. Any cell with row and column between 0 and 2^53 - 1 whose
    formula is its own label, as the host prints it, displays the
    circular-reference marker, in one call, and the marker is cached for
    it. *)
Theorem self_reference_any_cell (newFunction : string -> Completion)
    (g cache : gmap string string) (row col : Z) (label : string) (fuel : nat) :
  0 <= row <= MAX_SAFE_INTEGER -> 0 <= col <= MAX_SAFE_INTEGER ->
  cellKeyToLabelHost row col = Some label ->
  cacheMiss cache (getCellKey row col) ->
  g !! getCellKey row col = Some (String "=" label) ->
  displayValue newFunction (S fuel) g cache row col
  = Some ("Circular reference", <[getCellKey row col := "Circular reference"]> cache).
Proof.
  intros Hrow [Hcol _] Hlabel.
  rewrite cellKeyToLabelHost_exact in Hlabel by (unfold MAX_SAFE_INTEGER in *; lia).
  injection Hlabel as <-. apply self_reference_general; [lia | assumption].
Qed.

Lemma self_reference_any_cell_witness :
  displayValue sumHost 1 (<["6,27" := "=AB7"]> ∅) ∅ 6 27
  = Some ("Circular reference", <[getCellKey 6 27 := "Circular reference"]> ∅).
Proof.
  apply (self_reference_any_cell sumHost (<["6,27" := "=AB7"]> ∅) ∅ 6 27 "AB7" 0);
    [unfold MAX_SAFE_INTEGER; lia | unfold MAX_SAFE_INTEGER; lia
     | vm_compute; reflexivity | reflexivity | reflexivity].
Defined.

(** X20. The marker does not propagate.  For cells with rows and columns
    between 0 and 2^53 - 1: a cell whose formula is the label of another
    cell that refers to itself does not display the marker by that fact;
    the marker text is substituted for the token and handed to the host
    as an expression, and the cell displays what the host makes of
    [return Circular reference]. *)
Theorem marker_not_propagated (newFunction : string -> Completion)
    (g cache : gmap string string) (row col row' col' : Z) (label : string) (fuel : nat) :
  0 <= row <= MAX_SAFE_INTEGER -> 0 <= col <= MAX_SAFE_INTEGER ->
  0 <= row' <= MAX_SAFE_INTEGER -> 0 <= col' <= MAX_SAFE_INTEGER ->
  row' <> row \/ col' <> col ->
  cellKeyToLabelHost row col = Some label ->
  cacheMiss cache (getCellKey row col) ->
  cacheMiss cache (getCellKey row' col') ->
  g !! getCellKey row col = Some (String "=" label) ->
  g !! getCellKey row' col' = Some (String "=" label) ->
  displayValue newFunction (S (S fuel)) g cache row' col'
  = Some (settle (newFunction "return Circular reference"),
          <[getCellKey row' col' := settle (newFunction "return Circular reference")]>
            (<[getCellKey row col := "Circular reference"]> cache)).
Proof.
  intros Hrow' [Hcol _] _ _ Hne Hlabel HmA HmB HgA HgB.
  rewrite cellKeyToLabelHost_exact in Hlabel by (unfold MAX_SAFE_INTEGER in *; lia).
  injection Hlabel as <-. destruct Hrow' as [Hrow _].
  assert (Hkeys : getCellKey row col <> getCellKey row' col')
    by (intros Heq; apply getCellKey_inj in Heq; lia).
  rewrite displayValue_S. unfold displayBody at 1. unfold getValue.
  rewrite HmB, HgB. cbn [from_option id isEmpty negb startsWithEq slice1].
  change (charCode "=" =? 61) with true. cbn [negb].
  rewrite (segments_cellKeyToLabel row col Hrow Hcol). cbn [replaceAll].
  rewrite (replaceCallback_formula _ g _ ∅ cache _ (getCellKey row col)
             (String "=" (cellKeyToLabel row col)));
    [| apply roundtrip_general; lia | set_solver | exact Hkeys | exact HgA | reflexivity].
  rewrite keyToCoord_getCellKey. cbn [fst snd].
  rewrite (self_reference_general newFunction g cache row col fuel Hrow Hcol HmA HgA).
  unfold circularMessage. now rewrite string_app_nil_r.
Qed.

Lemma marker_not_propagated_witness :
  displayValue sumHost 2 (<["0,0" := "=A1"]> (<["0,1" := "=A1"]> ∅)) ∅ 0 1
  = Some (settle (sumHost "return Circular reference"),
          <[getCellKey 0 1 := settle (sumHost "return Circular reference")]>
            (<[getCellKey 0 0 := "Circular reference"]> ∅)).
Proof.
  apply (marker_not_propagated sumHost (<["0,0" := "=A1"]> (<["0,1" := "=A1"]> ∅)) ∅
           0 0 0 1 "A1" 0);
    try (unfold MAX_SAFE_INTEGER; lia); try (vm_compute; reflexivity).
Defined.

(** * The evaluator on a finite call stack *)

Section OnStackFacts.

Variable newFunction : string -> Completion.

Variable stackMessage : string.

Lemma displayValueOnStack_S limit g cache row col :
  displayValueOnStack newFunction stackMessage (S limit) g cache row col
  = Some (displayBodyOnStack newFunction stackMessage
            (displayValueOnStack newFunction stackMessage limit g) g cache row col).
Proof. reflexivity. Qed.

(** *** An evaluation that fits in the stack is not affected by it *)

Lemma replaceCallback_fits (r1 r2 : recurT) g cellKey refs cache label x :
  recurLe r1 r2 ->
  replaceCallback r1 g cellKey refs cache label = Some x ->
  replaceCallbackOnStack stackMessage r2 g cellKey refs cache label = x.
Proof.
  intros Hle H. unfold replaceCallbackOnStack.
  now rewrite (replaceCallback_mono r1 r2 _ _ _ _ _ _ Hle H).
Qed.

Lemma replaceAll_fits (r1 r2 : recurT) g cellKey segs refs cache x :
  recurLe r1 r2 ->
  replaceAll r1 g cellKey segs refs cache = Some x ->
  replaceAllOnStack stackMessage r2 g cellKey segs refs cache = x.
Proof.
  intros Hle. revert refs cache x.
  induction segs as [|[c|label] rest IH]; intros refs cache x; cbn [replaceAll replaceAllOnStack].
  - now intros [= <-].
  - destruct (replaceAll r1 g cellKey rest refs cache) as [y|] eqn:E; [|discriminate].
    rewrite (IH _ _ _ E). destruct y as [[out|m] c']; now intros [= <-].
  - destruct (replaceCallback r1 g cellKey refs cache label) as [[[o refs'] c']|] eqn:E;
      [|discriminate].
    rewrite (replaceCallback_fits _ _ _ _ _ _ _ _ Hle E).
    destruct o as [sub|m]; [|now intros [= <-]].
    destruct (replaceAll r1 g cellKey rest refs' c') as [y|] eqn:E'; [|discriminate].
    rewrite (IH _ _ _ E'). destruct y as [[out|m] c'']; now intros [= <-].
Qed.

Lemma displayBody_fits (r1 r2 : recurT) g cache row col x :
  recurLe r1 r2 ->
  displayBody newFunction r1 g cache row col = Some x ->
  displayBodyOnStack newFunction stackMessage r2 g cache row col = x.
Proof.
  intros Hle. unfold displayBody, displayBodyOnStack.
  destruct (negb (isEmpty (default EmptyString (cache !! getCellKey row col))));
    [now intros [= <-]|].
  destruct (negb (startsWithEq (getValue g row col))); [now intros [= <-]|].
  destruct (replaceAll r1 _ _ _ _ _) as [y|] eqn:E; [|discriminate].
  rewrite (replaceAll_fits _ _ _ _ _ _ _ _ Hle E).
  destruct y as [[out|m] c']; now intros [= <-].
Qed.

Lemma displayValue_fits limit g :
  recurLe (displayValue newFunction limit g)
          (displayValueOnStack newFunction stackMessage limit g).
Proof.
  induction limit as [|limit IH]; intros cache row col x; [discriminate|].
  rewrite displayValue_S, displayValueOnStack_S. intros H.
  now rewrite (displayBody_fits _ _ _ _ _ _ _ IH H).
Qed.

Lemma display_fits limit e row col x :
  display newFunction limit e row col = Some x ->
  displayOnStack newFunction stackMessage limit e row col = Some x.
Proof.
  unfold display, displayOnStack.
  destruct (displayValue newFunction limit (gridData e) (calculationCache e) row col)
    as [[text c']|] eqn:E; [|discriminate].
  now rewrite (displayValue_fits _ _ _ _ _ _ E).
Qed.

Lemma run_fits limit ops e x :
  run newFunction limit ops e = Some x ->
  runOnStack newFunction stackMessage limit ops e = Some x.
Proof.
  revert e x. induction ops as [|[row col value|row col] rest IH]; intros e x;
    cbn [run runOnStack]; [auto | apply IH |].
  destruct (display newFunction limit e row col) as [[text e']|] eqn:E; [|discriminate].
  rewrite (display_fits _ _ _ _ _ E).
  destruct (run newFunction limit rest e') as [[texts e'']|] eqn:E'; [|discriminate].
  now rewrite (IH _ _ E').
Qed.

(** *** The throws of the replacement *)

Lemma replaceCallbackOnStack_outcome (recur : recurT) g cellKey refs cache label o refs' cache' :
  replaceCallbackOnStack stackMessage recur g cellKey refs cache label = (o, refs', cache') ->
  match o with
  | Normal _ => refs' = refs ∪ keysOf [Match label]
  | Throw message => message = circularMessage \/ message = stackMessage
  end.
Proof.
  unfold replaceCallbackOnStack.
  destruct (replaceCallback recur g cellKey refs cache label) as [[[o1 r1] c1]|] eqn:E.
  - intros ?; simplify_eq. apply (replaceCallback_outcome newFunction) in E.
    destruct o; [exact E | left; apply E].
  - intros ?; simplify_eq. now right.
Qed.

Lemma replaceAllOnStack_throw (recur : recurT) g cellKey segs refs cache message cache' :
  replaceAllOnStack stackMessage recur g cellKey segs refs cache = (Throw message, cache') ->
  message = circularMessage \/ message = stackMessage.
Proof.
  revert refs cache. induction segs as [|[c|label] rest IH]; intros refs cache;
    cbn [replaceAllOnStack].
  - discriminate.
  - destruct (replaceAllOnStack stackMessage recur g cellKey rest refs cache)
      as [[out|m] c'] eqn:E; [discriminate|].
    intros ?; simplify_eq. eauto.
  - destruct (replaceCallbackOnStack stackMessage recur g cellKey refs cache label)
      as [[[sub|m] refs1] c1] eqn:E.
    + destruct (replaceAllOnStack stackMessage recur g cellKey rest refs1 c1)
        as [[out|m] c'] eqn:E'; [discriminate|].
      intros ?; simplify_eq. eauto.
    + intros ?; simplify_eq. exact (replaceCallbackOnStack_outcome _ _ _ _ _ _ _ _ _ E).
Qed.


(** *** A nested call that the stack cannot hold *)


(** *** The two-cell cycle on a finite stack *)


(** *** The texts of a formula cell *)

Lemma formula_text_on_stack recur g cache row col :
  cacheMiss cache (getCellKey row col) ->
  startsWithEq (getValue g row col) = true ->
  match replaceAllOnStack stackMessage recur g (getCellKey row col)
          (segments (slice1 (getValue g row col))) ∅ cache with
  | (Normal parsedExpr, cache') =>
      displayBodyOnStack newFunction stackMessage recur g cache row col
      = (settle (newFunction ("return " +:+ parsedExpr)),
         <[getCellKey row col := settle (newFunction ("return " +:+ parsedExpr))]> cache')
  | (Throw message, cache') =>
      displayBodyOnStack newFunction stackMessage recur g cache row col
      = (message, <[getCellKey row col := message]> cache')
      /\ (message = circularMessage \/ message = stackMessage)
  end.
Proof.
  intros Hmiss Hf. unfold displayBodyOnStack. rewrite Hmiss, Hf. cbn [isEmpty negb].
  destruct (replaceAllOnStack _ _ _ _ _ _ _) as [[out|m] c'] eqn:E; [reflexivity|].
  split; [reflexivity | exact (replaceAllOnStack_throw _ _ _ _ _ _ _ _ E)].
Qed.

End OnStackFacts.

(** * Properties of the evaluator on a finite call stack *)







(** X21. The evaluation of a formula cell that is not served from the
    cache raises no error of its own other than the circular-reference
    one.  On a stack that holds the call, the substitution of the cell's
    own expression either completes, and the text is what the host
    evaluation of [return] followed by the substituted expression
    settles to, or it throws, and the text is the message thrown, which
    is the circular-reference marker or the host's stack-error message;
    in both cases the text is cached for the cell on top of the cache
    left by the substitution. *)
Theorem formula_display_shape (newFunction : string -> Completion)
    (stackMessage : string) (g cache : gmap string string) (row col : Z) (limit : nat) :
  cacheMiss cache (getCellKey row col) ->
  startsWithEq (getValue g row col) = true ->
  exists outcome cacheMid,
    replaceAllOnStack stackMessage (displayValueOnStack newFunction stackMessage limit g) g
      (getCellKey row col) (segments (slice1 (getValue g row col))) ∅ cache
    = (outcome, cacheMid)
    /\ match outcome with
       | Normal parsedExpr =>
           displayValueOnStack newFunction stackMessage (S limit) g cache row col
           = Some (settle (newFunction ("return " +:+ parsedExpr)),
                   <[getCellKey row col := settle (newFunction ("return " +:+ parsedExpr))]>
                     cacheMid)
       | Throw message =>
           displayValueOnStack newFunction stackMessage (S limit) g cache row col
           = Some (message, <[getCellKey row col := message]> cacheMid)
           /\ (message = "Circular reference" \/ message = stackMessage)
       end.
Proof.
  intros Hmiss Hf.
  pose proof (formula_text_on_stack newFunction stackMessage
                (displayValueOnStack newFunction stackMessage limit g) g cache row col
                Hmiss Hf) as H.
  destruct (replaceAllOnStack _ _ _ _ _ _ _) as [[out|m] c'].
  - exists (Normal out), c'. split; [reflexivity|].
    rewrite displayValueOnStack_S. now rewrite H.
  - exists (Throw m), c'. split; [reflexivity|]. destruct H as [H Hm].
    rewrite displayValueOnStack_S. rewrite H. split; [reflexivity | exact Hm].
Qed.

Lemma formula_display_shape_witness :
  exists outcome cacheMid,
    replaceAllOnStack v8StackMessage
      (displayValueOnStack sumHost v8StackMessage 0 (<["0,0" := "=1+1"]> ∅))
      (<["0,0" := "=1+1"]> ∅)
      (getCellKey 0 0) (segments (slice1 (getValue (<["0,0" := "=1+1"]> ∅) 0 0))) ∅ ∅
    = (outcome, cacheMid)
    /\ match outcome with
       | Normal parsedExpr =>
           displayValueOnStack sumHost v8StackMessage 1 (<["0,0" := "=1+1"]> ∅) ∅ 0 0
           = Some (settle (sumHost ("return " +:+ parsedExpr)),
                   <[getCellKey 0 0 := settle (sumHost ("return " +:+ parsedExpr))]> cacheMid)
       | Throw message =>
           displayValueOnStack sumHost v8StackMessage 1 (<["0,0" := "=1+1"]> ∅) ∅ 0 0
           = Some (message, <[getCellKey 0 0 := message]> cacheMid)
           /\ (message = "Circular reference" \/ message = v8StackMessage)
       end.
Proof.
  apply (formula_display_shape sumHost v8StackMessage (<["0,0" := "=1+1"]> ∅) ∅ 0 0 0);
    reflexivity.
Defined.

(** X22. As long as no evaluation needs more nested calls than the stack
    holds, and the host evaluator being a function of the text it is
    given, calls of [displayValue] do not influence each other's
    results: in a state reached by [setValue] and [displayValue] calls,
    the text displayed for a cell is the same whether or not another
    cell has been displayed just before. *)
Theorem reads_do_not_interfere (newFunction : string -> Completion)
    (stackMessage : string)
    (limit : nat) (ops : list op) (texts : list string) (e e1 e2 e3 : engine)
    (row col row' col' : Z) (t t1 t2 : string) :
  run newFunction limit ops initial = Some (texts, e) ->
  display newFunction limit e row col = Some (t, e1) ->
  display newFunction limit e1 row' col' = Some (t1, e2) ->
  display newFunction limit e row' col' = Some (t2, e3) ->
  runOnStack newFunction stackMessage limit ops initial = Some (texts, e)
  /\ displayOnStack newFunction stackMessage limit e row col = Some (t, e1)
  /\ displayOnStack newFunction stackMessage limit e1 row' col' = Some (t1, e2)
  /\ displayOnStack newFunction stackMessage limit e row' col' = Some (t2, e3)
  /\ t1 = t2.
Proof.
  intros Hrun H1 H2 H3.
  split; [exact (run_fits newFunction stackMessage _ _ _ _ Hrun)|].
  split; [exact (display_fits newFunction stackMessage _ _ _ _ _ H1)|].
  split; [exact (display_fits newFunction stackMessage _ _ _ _ _ H2)|].
  split; [exact (display_fits newFunction stackMessage _ _ _ _ _ H3)|].
  revert H1 H2 H3. unfold display.
  pose proof (run_consistent newFunction limit ops initial texts e
                (consistent_empty newFunction ∅) Hrun) as Hc.
  destruct (displayValue newFunction limit (gridData e) (calculationCache e) row col)
    as [[ta ca]|] eqn:Ea; [|discriminate].
  intros ?; simplify_eq. cbn [gridData calculationCache].
  destruct (displayValue_sound newFunction _ _ _ _ _ _ _ Hc Ea) as [Hca _].
  destruct (displayValue newFunction limit (gridData e) ca row' col')
    as [[tb cb]|] eqn:Eb; [|discriminate].
  intros ?; simplify_eq.
  destruct (displayValue newFunction limit (gridData e) (calculationCache e) row' col')
    as [[tc cc]|] eqn:Ec; [|discriminate].
  intros ?; simplify_eq.
  destruct (displayValue_sound newFunction _ _ _ _ _ _ _ Hca Eb) as [_ [fb Hb]].
  destruct (displayValue_sound newFunction _ _ _ _ _ _ _ Hc Ec) as [_ [fc Hc']].
  exact (displayPure_functional newFunction _ _ _ _ _ _ _ Hb Hc').
Qed.

Lemma reads_do_not_interfere_witness :
  runOnStack sumHost v8StackMessage 2 [SetRaw 0 0 "=1+1"; SetRaw 0 1 "=A1+1"] initial
  = Some ([], Engine (<["0,1" := "=A1+1"]> (<["0,0" := "=1+1"]> ∅)) ∅)
  /\ displayOnStack sumHost v8StackMessage 2
       (Engine (<["0,1" := "=A1+1"]> (<["0,0" := "=1+1"]> ∅)) ∅) 0 0
     = Some ("2", Engine (<["0,1" := "=A1+1"]> (<["0,0" := "=1+1"]> ∅)) {[ "0,0" := "2" ]})
  /\ displayOnStack sumHost v8StackMessage 2
       (Engine (<["0,1" := "=A1+1"]> (<["0,0" := "=1+1"]> ∅)) {[ "0,0" := "2" ]}) 0 1
     = Some ("3", Engine (<["0,1" := "=A1+1"]> (<["0,0" := "=1+1"]> ∅))
                         (<["0,1" := "3"]> {[ "0,0" := "2" ]}))
  /\ displayOnStack sumHost v8StackMessage 2
       (Engine (<["0,1" := "=A1+1"]> (<["0,0" := "=1+1"]> ∅)) ∅) 0 1
     = Some ("3", Engine (<["0,1" := "=A1+1"]> (<["0,0" := "=1+1"]> ∅))
                         (<["0,1" := "3"]> {[ "0,0" := "2" ]}))
  /\ "3" = "3".
Proof.
  apply (reads_do_not_interfere sumHost v8StackMessage 2
           [SetRaw 0 0 "=1+1"; SetRaw 0 1 "=A1+1"] []
           (Engine (<["0,1" := "=A1+1"]> (<["0,0" := "=1+1"]> ∅)) ∅)
           (Engine (<["0,1" := "=A1+1"]> (<["0,0" := "=1+1"]> ∅)) {[ "0,0" := "2" ]})
           (Engine (<["0,1" := "=A1+1"]> (<["0,0" := "=1+1"]> ∅))
                   (<["0,1" := "3"]> {[ "0,0" := "2" ]}))
           (Engine (<["0,1" := "=A1+1"]> (<["0,0" := "=1+1"]> ∅))
                   (<["0,1" := "3"]> {[ "0,0" := "2" ]}))
           0 0 0 1 "2" "3" "3"); vm_compute; reflexivity.
Defined.
